(** * Contact scraper (app.py): extraction, normalisation, store and table.

    A shallow embedding of [app.py].  Python [str] values are sequences of
    Unicode code points; Python [int] values are unbounded integers.  The
    primitives of the Python runtime that the program calls ([str.strip],
    [str.replace], [re.sub], [re.findall], [unicodedata.east_asian_width],
    the sqlite3 table with its [UNIQUE] column, the Tk text widget) are
    modelled by the definitions of the first half of the file; the
    functions of [app.py] keep their names. *)

From Stdlib Require Import String Ascii.
From Stdlib Require Import List NArith ZArith Lia Bool.
Import ListNotations.

(** ** Strings *)

Module Str.

(** A code point. *)
Definition char : Type := N.

(** A Python [str]. *)
Definition str : Type := list char.

Definition char_eqb (a b : char) : bool := N.eqb a b.

Fixpoint eqb (a b : str) : bool :=
  match a, b with
  | [], [] => true
  | x :: a', y :: b' => char_eqb x y && eqb a' b'
  | _, _ => false
  end.

(** ASCII literals of the source, as code points. *)
Definition py (s : string) : str := map N_of_ascii (list_ascii_of_string s).

Definition space : char := 32%N.
Definition newline : char := 10%N.
Definition slash : char := 47%N.
Definition dash : char := 45%N.
Definition dquote : char := 34%N.

(** [quoted s] is [s] between two double quotes. *)
Definition quoted (s : str) : str := dquote :: s ++ [dquote].

(** [Py_UNICODE_ISSPACE]: the characters that [str.strip()] removes and
    that [\s] matches in a [str] pattern. *)
Definition isspace (c : char) : bool :=
  ((9 <=? c) && (c <=? 13) || (28 <=? c) && (c <=? 32)
   || (c =? 133) || (c =? 160) || (c =? 5760)
   || (8192 <=? c) && (c <=? 8202)
   || (c =? 8232) || (c =? 8233) || (c =? 8239) || (c =? 8287)
   || (c =? 12288))%N.

(** [s.lstrip()] *)
Fixpoint lstrip (s : str) : str :=
  match s with
  | c :: s' => if isspace c then lstrip s' else s
  | [] => []
  end.

(** [s.rstrip()] *)
Definition rstrip (s : str) : str := rev (lstrip (rev s)).

(** [s.strip()] *)
Definition strip (s : str) : str := rstrip (lstrip s).

(** [re.sub(r'\s+', ' ', s)]: the scan replaces each maximal run of
    whitespace by one space; [in_run] tells that the previous character
    belonged to the run being replaced. *)
Fixpoint re_sub_ws_from (in_run : bool) (s : str) : str :=
  match s with
  | [] => []
  | c :: s' =>
      if isspace c
      then if in_run then re_sub_ws_from true s'
           else space :: re_sub_ws_from true s'
      else c :: re_sub_ws_from false s'
  end.

Definition re_sub_ws (s : str) : str := re_sub_ws_from false s.

(** [s.replace('//', '')]: occurrences are found from left to right and
    do not overlap. *)
Fixpoint replace_double_slash (s : str) : str :=
  match s with
  | [] => []
  | c :: s' =>
      match s' with
      | d :: s'' =>
          if char_eqb c slash && char_eqb d slash
          then replace_double_slash s''
          else c :: replace_double_slash s'
      | [] => [c]
      end
  end.

(** [c * n] for a one-character string [c] and a Python integer [n]:
    empty when [n] is not positive. *)
Definition times (c : char) (n : Z) : str := repeat c (Z.to_nat n).

(** [s.startswith(p)] *)
Fixpoint starts_with (p s : str) : bool :=
  match p, s with
  | [], _ => true
  | x :: p', y :: s' => char_eqb x y && starts_with p' s'
  | _ :: _, [] => false
  end.

End Str.

Import Str.

(** ** Display width *)

Module Width.

(** The values of [unicodedata.east_asian_width]. *)
Inductive eaw : Type := EA_F | EA_H | EA_W | EA_Na | EA_A | EA_N.

Section Unicode.

(** The East Asian Width property outside the blocks listed in
    [east_asian_width] below. *)
Variable ucd_other : char -> eaw.

(** [unicodedata.east_asian_width]: Basic Latin is narrow (its controls
    neutral), the CJK Unified Ideographs U+4E00 to U+9FA5 are wide, the
    ideographic space and the Fullwidth Forms are fullwidth; the rest of
    the table is [ucd_other]. *)
Definition east_asian_width (c : char) : eaw :=
  (if c <? 32 then EA_N
   else if c <? 127 then EA_Na
   else if c <? 128 then EA_N
   else if (19968 <=? c) && (c <=? 40869) then EA_W
   else if c =? 12288 then EA_F
   else if (65281 <=? c) && (c <=? 65376) then EA_F
   else if (65504 <=? c) && (c <=? 65510) then EA_F
   else ucd_other c)%N.

(** [w in ('F', 'W', 'A')] *)
Definition in_FWA (w : eaw) : bool :=
  match w with
  | EA_F | EA_W | EA_A => true
  | _ => false
  end.

(** The loop of [get_display_width], [width] being its accumulator. *)
Definition get_display_width (s : str) : Z :=
  fold_left
    (fun (width : Z) (ch : char) =>
       if in_FWA (east_asian_width ch) then (width + 2)%Z else (width + 1)%Z)
    s 0%Z.

Definition pad_string (s : str) (total_width : Z) : str :=
  let padding := (total_width - get_display_width s)%Z in
  s ++ times space (Z.max padding 0).

(** The columns one character takes, and their sum over a string: the
    width as the specification words it. *)
Definition columns (c : char) : Z :=
  if in_FWA (east_asian_width c) then 2%Z else 1%Z.

Definition column_sum (s : str) : Z :=
  fold_right Z.add 0%Z (map columns s).

Definition is_ascii (c : char) : Prop := (c < 128)%N.

Definition is_wide (c : char) : Prop := in_FWA (east_asian_width c) = true.

End Unicode.

End Width.

Import Width.

(** ** Exceptions *)

Inductive exn : Type :=
| IntegrityError
| OperationalError
| ValueError
| UnicodeEncodeError
| DataError.

(** What a call comes to: a value, or an exception that nothing caught. *)
Inductive outcome (A : Type) : Type :=
| Done (a : A)
| Raised (e : exn).

Arguments Done {A} a.
Arguments Raised {A} e.

Definition bind {A B : Type} (x : outcome A) (f : A -> outcome B) : outcome B :=
  match x with
  | Done a => f a
  | Raised e => Raised e
  end.

(** ** Regular expressions: the fragment [pattern] is written in *)

Module Re.

(** One item without a group around it: literal text, [c*], [c+] and
    [c*?] for a character class [c]. *)
Inductive atom : Type :=
| Lit (s : str)
| Star (cls : char -> bool)
| Plus (cls : char -> bool)
| LazyStar (cls : char -> bool).

(** An item of a pattern: an atom, alone or in a capturing group. *)
Inductive node : Type :=
| Bare (a : atom)
| Group (a : atom).

(** [.] under [re.DOTALL] *)
Definition any (_ : char) : bool := true.

(** The groups captured, in order, and the text after the match. *)
Definition result : Type := (list str * str)%type.

(** The greedy loop: as many characters of the class as there are, then
    one fewer each time the rest of the pattern fails.  [acc] is the text
    the item has taken so far; [k] matches the rest of the pattern. *)
Fixpoint greedy (cls : char -> bool) (k : str -> str -> option result)
    (acc s : str) : option result :=
  match s with
  | c :: s' =>
      if cls c
      then match greedy cls k (acc ++ [c]) s' with
           | Some r => Some r
           | None => k acc s
           end
      else k acc s
  | [] => k acc s
  end.

(** The lazy loop: the rest of the pattern first, one more character each
    time it fails. *)
Fixpoint lazy (cls : char -> bool) (k : str -> str -> option result)
    (acc s : str) : option result :=
  match k acc s with
  | Some r => Some r
  | None =>
      match s with
      | c :: s' => if cls c then lazy cls k (acc ++ [c]) s' else None
      | [] => None
      end
  end.

Definition m_atom (a : atom) (k : str -> str -> option result) (s : str)
  : option result :=
  match a with
  | Lit l => if starts_with l s then k l (skipn (length l) s) else None
  | Star cls => greedy cls k [] s
  | Plus cls =>
      match s with
      | c :: s' => if cls c then greedy cls k [c] s' else None
      | [] => None
      end
  | LazyStar cls => lazy cls k [] s
  end.

(** The backtracking match of a pattern at the start of [s]: the first
    success in the order the engine tries the alternatives. *)
Fixpoint m_seq (p : list node) (s : str) : option result :=
  match p with
  | [] => Some ([], s)
  | Bare a :: r => m_atom a (fun _ rest => m_seq r rest) s
  | Group a :: r =>
      m_atom a
        (fun w rest =>
           match m_seq r rest with
           | Some (caps, fin) => Some (w :: caps, fin)
           | None => None
           end) s
  end.

(** [pattern.findall(s)]: the matches from left to right, each search
    starting where the previous match ended, one character further where
    there is no match.  A match that takes no text moves the scan on by one
    character ([pattern] has none, see [pattern_takes_text]).  [fuel]
    bounds the number of searches. *)
Fixpoint findall_fuel (fuel : nat) (p : list node) (s : str)
  : list (list str) :=
  match fuel with
  | O => []
  | S fuel' =>
      match m_seq p s with
      | Some (caps, rest) =>
          caps ::
            (if Nat.ltb (length rest) (length s)
             then findall_fuel fuel' p rest
             else match s with
                  | [] => []
                  | _ :: s' => findall_fuel fuel' p s'
                  end)
      | None =>
          match s with
          | [] => []
          | _ :: s' => findall_fuel fuel' p s'
          end
      end
  end.

Definition findall (p : list node) (s : str) : list (list str) :=
  findall_fuel (S (length s)) p s.

End Re.

Import Re.

(** ** The extractor *)

(** A contact: name, title, email. *)
Definition contact : Type := (str * str * str)%type.

(** [re.compile(r'<div\s+class="member_name">.*?<a\s+href="content_teacher_detail\.php\?teacher_rkey=.*?">\s*(.*?)\s*</a>.*?<div\s+class="member_info_content">\s*(.*?)\s*</div>.*?<a\s+href="mailto:(.*?)">', re.DOTALL)] *)
Definition pattern : list node :=
  [ Bare (Lit (py "<div")); Bare (Plus isspace);
    Bare (Lit (py "class=" ++ quoted (py "member_name") ++ py ">"));
    Bare (LazyStar any);
    Bare (Lit (py "<a")); Bare (Plus isspace);
    Bare (Lit (py "href=" ++ [dquote]
               ++ py "content_teacher_detail.php?teacher_rkey="));
    Bare (LazyStar any);
    Bare (Lit ([dquote] ++ py ">"));
    Bare (Star isspace); Group (LazyStar any); Bare (Star isspace);
    Bare (Lit (py "</a>"));
    Bare (LazyStar any);
    Bare (Lit (py "<div")); Bare (Plus isspace);
    Bare (Lit (py "class=" ++ quoted (py "member_info_content") ++ py ">"));
    Bare (Star isspace); Group (LazyStar any); Bare (Star isspace);
    Bare (Lit (py "</div>"));
    Bare (LazyStar any);
    Bare (Lit (py "<a")); Bare (Plus isspace);
    Bare (Lit (py "href=" ++ [dquote] ++ py "mailto:"));
    Group (LazyStar any);
    Bare (Lit ([dquote] ++ py ">")) ].

(** [name, title, email = match] *)
Definition unpack3 (m : list str) : outcome (str * str * str) :=
  match m with
  | [a; b; c] => Done (a, b, c)
  | _ => Raised ValueError
  end.

(** The body of the loop over the matches. *)
Definition scrape_step (contacts : list contact) (m : list str)
  : outcome (list contact) :=
  bind (unpack3 m) (fun '(name, title, email) =>
    let name := re_sub_ws name in
    let email := replace_double_slash email in
    Done (contacts ++ [(strip name, strip title, strip email)])).

(** [scrape_contacts] from [html_content = response.text] on: the part
    that works on the text of the page. *)
Definition extract_contacts (html_content : str) : outcome (list contact) :=
  let matches := findall pattern html_content in
  fold_left (fun acc m => bind acc (fun contacts => scrape_step contacts m))
    matches (Done []).

(** ** The network and [scrape_contacts] *)

Definition URL : str :=
  py "https://csie.ncut.edu.tw/content.php?key=86OP82WJQO".

(** What [requests.get] comes to: a response with its status code and
    text, or a [RequestException] with its message. *)
Inductive response : Type :=
| Response (status_code : Z) (text : str)
| RequestException (detail : str).

(** The three error windows of [scrape_contacts]. *)
Inductive dialog : Type :=
| NotFoundDialog
| HttpErrorDialog (status_code : Z)
| ConnectionDialog (detail : str).

(** What the program does to the outside: a request, an error window. *)
Inductive effect : Type :=
| Get (url : str)
| ShowError (d : dialog).

(** [response.raise_for_status()] raises [HTTPError] for the 4xx and 5xx
    codes. *)
Definition is_http_error (status_code : Z) : bool :=
  ((400 <=? status_code) && (status_code <? 600))%Z.

(** [scrape_contacts()], on a network [net] that answers each URL. *)
Definition scrape_contacts (net : str -> response)
  : list effect * outcome (list contact) :=
  match net URL with
  | Response status_code text =>
      if is_http_error status_code
      then ([Get URL;
             ShowError (if (status_code =? 404)%Z then NotFoundDialog
                        else HttpErrorDialog status_code)],
            Done [])
      else ([Get URL], extract_contacts text)
  | RequestException detail =>
      ([Get URL; ShowError (ConnectionDialog detail)], Done [])
  end.

(** ** The contact store *)

Module Db.

(** A row of the table [contacts]. *)
Record row : Type := Row {
  iid : Z;
  name : str;
  title : str;
  email : str
}.

(** The table [contacts]: its rows in insertion order, and the largest
    [iid] ever given ([AUTOINCREMENT]). *)
Record table : Type := Table {
  rows : list row;
  seq : Z
}.

(** The file [contacts.db]: without the table, or with it. *)
Definition database : Type := option table.

Definition emails (t : table) : list str := map email (rows t).

Definition has_email (e : str) (t : table) : bool :=
  existsb (fun r => Str.eqb (email r) e) (rows t).

Definition largest_iid (t : table) : Z :=
  fold_right (fun r m => Z.max (iid r) m) (seq t) (rows t).

(** [CREATE TABLE IF NOT EXISTS contacts (...)] *)
Definition setup_database (db : database) : database :=
  match db with
  | None => Some (Table [] 0)
  | Some t => Some t
  end.

(** The largest key a table can hold, [2^63 - 1]. *)
Definition max_rowid : Z := 9223372036854775807%Z.

(** A surrogate code point: a [str] that holds one has no UTF-8
    encoding. *)
Definition is_surrogate (c : char) : bool :=
  ((55296 <=? c) && (c <=? 57343))%N.

Definition has_surrogate (s : str) : bool := existsb is_surrogate s.

Section Engine.

(** The length limit of the engine ([SQLITE_LIMIT_LENGTH], set when the
    engine is built): whether it refuses the three texts of a row as too
    big. *)
Variable too_big : contact -> bool.

(** The texts of the record can be bound and stored. *)
Definition storable (c : contact) : bool :=
  let '(n, ti, e) := c in
  negb (has_surrogate n || has_surrogate ti || has_surrogate e)
  && negb (too_big c).

(** [cursor.execute("INSERT INTO contacts (name, title, email) VALUES
    (?, ?, ?)", (name, title, email))].  The three texts are bound first:
    one that holds a surrogate raises [UnicodeEncodeError], texts over
    the length limit are refused with an error of the [sqlite3] module,
    here [DataError].  Then the statement runs: it takes
    the key after the largest one ever given ([AUTOINCREMENT]) and raises
    [OperationalError] when that was [max_rowid]; the [UNIQUE] column
    refuses an email already in the table with [IntegrityError].  A
    statement that raises changes nothing. *)
Definition execute_insert (t : table) (c : contact) : outcome table :=
  let '(n, ti, e) := c in
  if has_surrogate n || has_surrogate ti || has_surrogate e
  then Raised UnicodeEncodeError
  else if too_big c then Raised DataError
  else if (max_rowid <=? largest_iid t)%Z then Raised OperationalError
  else if has_email e t then Raised IntegrityError
  else
    let i := (largest_iid t + 1)%Z in
    Done (Table (rows t ++ [Row i n ti e]) i).

(** The body of the loop: [try: execute(...) except IntegrityError: pass]. *)
Definition save_step (t : table) (c : contact) : outcome table :=
  match execute_insert t c with
  | Raised IntegrityError => Done t
  | o => o
  end.

(** The loop of [save_to_database] on the open connection. *)
Definition save_loop (t : table) (contacts : list contact)
  : outcome table :=
  fold_left (fun acc c => bind acc (fun t' => save_step t' c))
    contacts (Done t).

(** [save_to_database(contacts)]: the file as the call leaves it, and
    what the call comes to.  The inserts are one transaction, which
    [conn.commit()] ends; an exception that the loop does not catch
    leaves the function before the commit, and the file keeps what it
    held.  On a file without the table the first insert raises
    [OperationalError]. *)
Definition save_to_database (db : database) (contacts : list contact)
  : database * outcome unit :=
  match db with
  | None =>
      match contacts with
      | [] => (None, Done tt)
      | _ :: _ => (None, Raised OperationalError)
      end
  | Some t =>
      match save_loop t contacts with
      | Done t' => (Some t', Done tt)
      | Raised e => (Some t, Raised e)
      end
  end.

End Engine.

(** The (name, title, email) of a row. *)
Definition payload (r : row) : contact := (name r, title r, email r).

(** The first record of a list under an email. *)
Definition first_with (e : str) (l : list contact) : option contact :=
  find (fun c => Str.eqb (snd c) e) l.

Definition stored (t : table) : list contact := map payload (rows t).

End Db.

(** ** The table on the screen *)

Module Tk.

Inductive widget_state : Type := normal | disabled.

(** A Tk text widget: a disabled widget ignores [insert] and [delete]. *)
Record text_widget : Type := Text {
  state : widget_state;
  content : str
}.

Definition configure (st : widget_state) (w : text_widget) : text_widget :=
  Text st (content w).

(** [w.delete(1.0, tk.END)] *)
Definition delete_all (w : text_widget) : text_widget :=
  match state w with
  | normal => Text normal []
  | disabled => w
  end.

(** [w.insert(tk.END, chars)] *)
Definition insert_end (chars : str) (w : text_widget) : text_widget :=
  match state w with
  | normal => Text normal (content w ++ chars)
  | disabled => w
  end.

End Tk.

Section Display.

Variable ucd_other : char -> eaw.

Definition headers : list str :=
  [ [22995; 21517]%N; [32887; 31281]%N; py "Email" ].

Definition widths : list Z := [12; 30; 30]%Z.

(** [''.join(pad_string(header, width)
             for header, width in zip(headers, widths))] *)
Definition header_line : str :=
  concat (map (fun hw => pad_string ucd_other (fst hw) (snd hw))
            (combine headers widths)).

(** [''.join('-' * width for width in widths)] *)
Definition separator : str := concat (map (fun w => times dash w) widths).

(** The cells of a record: [widths[0]], [widths[1]], [widths[2]] are
    read from the list. *)
Definition row_cells (c : contact) : list str :=
  let '(name, title, email) := c in
  [ pad_string ucd_other name (nth 0 widths 0%Z);
    pad_string ucd_other title (nth 1 widths 0%Z);
    pad_string ucd_other email (nth 2 widths 0%Z) ].

Definition data_row (c : contact) : str := concat (row_cells c).

Definition display_contacts (contacts : list contact)
    (contact_text : Tk.text_widget) : Tk.text_widget :=
  let w := Tk.configure Tk.normal contact_text in
  let w := Tk.delete_all w in
  let w := Tk.insert_end (header_line ++ [newline]) w in
  let w := Tk.insert_end (separator ++ [newline]) w in
  let w :=
    fold_left (fun w c => Tk.insert_end (data_row c ++ [newline]) w)
      contacts w in
  Tk.configure Tk.disabled w.

(** ** The window *)

Record gui : Type := Gui {
  url_entry : str;
  contact_text : Tk.text_widget
}.

(** The window as the program builds it before [root.mainloop()]. *)
Definition initial_gui : gui := Gui URL (Tk.Text Tk.disabled []).

Inductive event : Type :=
| EditUrl (new_text : str)
| ClickFetch.

(** One event of the main loop.  The command of the button is
    [lambda: display_contacts(scrape_contacts())]; an exception in a Tk
    callback leaves the window as it was. *)
Definition handle (net : str -> response) (ev : event) (g : gui)
  : list effect * gui :=
  match ev with
  | EditUrl new_text => ([], Gui new_text (contact_text g))
  | ClickFetch =>
      let '(effects, r) := scrape_contacts net in
      match r with
      | Done contacts =>
          (effects, Gui (url_entry g)
                        (display_contacts contacts (contact_text g)))
      | Raised _ => (effects, g)
      end
  end.

End Display.

(** ** Examples of input *)

Definition jane_markup : str :=
  py "<html><div class=" ++ quoted (py "member_name") ++ py "><a href="
  ++ quoted (py "content_teacher_detail.php?teacher_rkey=J1")
  ++ py ">  Jane   Doe </a></div>" ++ [newline]
  ++ py "<div class=" ++ quoted (py "member_info_content")
  ++ py ">Associate  Professor</div>" ++ [newline]
  ++ py "<a href=" ++ quoted (py "mailto://jane@example.edu")
  ++ py ">mail</a></html>".

(** A page whose one block has a title on two lines. *)
Definition chair_markup : str :=
  py "<div class=" ++ quoted (py "member_name") ++ py "> <a href="
  ++ quoted (py "content_teacher_detail.php?teacher_rkey=77")
  ++ py ">" ++ [newline] ++ py "  Li" ++ [9%N] ++ py " Wei" ++ [newline]
  ++ py "</a> <div class=" ++ quoted (py "member_info_content") ++ py ">"
  ++ py " Professor   and" ++ [newline] ++ py "Chair </div> <a href="
  ++ quoted (py "mailto:li@example.edu") ++ py ">".

(** A page without a contact block. *)
Definition plain_markup : str :=
  py "<html><body><div class=" ++ quoted (py "member_name")
  ++ py ">nobody</div></body></html>".

(** The two records of the example of the store. *)
Definition x_records : list contact :=
  [ (py "A", py "B", py "x@y.com"); (py "A2", py "B2", py "x@y.com") ].

(** A record that is new and a record whose email holds the surrogate
    U+D800. *)
Definition surrogate_records : list contact :=
  [ (py "A", py "B", py "x@y.com"); (py "C", py "D", [55296%N]) ].

(** A length limit for the examples: rows of more than 10^9 characters
    are refused. *)
Definition row_limit (c : contact) : bool :=
  let '(n, ti, e) := c in
  (1000000000 <? Z.of_nat (length n + length ti + length e))%Z.

(** The record of the example of the table: its name is U+540D U+5B57. *)
Definition wide_record : contact :=
  ([21517; 23383]%N, py "Title", py "e@x.com").

(** A network on which another address serves the page of the example
    and [URL] is not found. *)
Definition other_url : str := py "https://example.org/staff".

Definition example_net (url : str) : response :=
  if Str.eqb url other_url then Response 200 jane_markup
  else Response 404 [].

(** A table of widths for the examples: every character outside the
    listed blocks neutral. *)
Definition ucd_neutral (_ : char) : eaw := EA_N.

(** ** The words of the specification *)

Module Spec.

(** The string begins with a whitespace character. *)
Definition starts_ws (s : str) : bool :=
  match s with
  | c :: _ => isspace c
  | [] => false
  end.

(** The string ends with a whitespace character. *)
Definition ends_ws (s : str) : bool := starts_ws (rev s).

(** Every whitespace character of the string is an ASCII space, and no
    two whitespace characters are next to each other. *)
Fixpoint single_spaced (s : str) : bool :=
  match s with
  | [] => true
  | c :: s' =>
      (negb (isspace c) || char_eqb c space)
      && negb (isspace c && starts_ws s')
      && single_spaced s'
  end.

(** The field is in the form the normaliser promises. *)
Definition normalised (s : str) : bool :=
  negb (starts_ws s) && negb (ends_ws s) && single_spaced s.

(** The words of a string, as [s.split()] gives them; [cur] is the word
    being read. *)
Definition emit (cur : str) : list str :=
  match cur with
  | [] => []
  | _ :: _ => [cur]
  end.

Fixpoint words_from (cur : str) (s : str) : list str :=
  match s with
  | [] => emit cur
  | c :: s' =>
      if isspace c then emit cur ++ words_from [] s'
      else words_from (cur ++ [c]) s'
  end.

Definition words (s : str) : list str := words_from [] s.

(** The texts an atom matches. *)
Definition den_atom (a : atom) (w : str) : Prop :=
  match a with
  | Lit l => w = l
  | Star cls => forallb cls w = true
  | Plus cls => w <> [] /\ forallb cls w = true
  | LazyStar cls => forallb cls w = true
  end.

Definition atom_of (n : node) : atom :=
  match n with
  | Bare a => a
  | Group a => a
  end.

(** The texts a pattern matches: one piece for each item. *)
Fixpoint den_seq (p : list node) (w : str) : Prop :=
  match p with
  | [] => w = []
  | n :: r =>
      exists w1 w2, w = w1 ++ w2 /\ den_atom (atom_of n) w1 /\ den_seq r w2
  end.

(** The number of groups of a pattern. *)
Fixpoint groups (p : list node) : nat :=
  match p with
  | [] => 0
  | Bare _ :: r => groups r
  | Group _ :: r => S (groups r)
  end.

(** The suffixes of a string, the longest first. *)
Fixpoint tails (s : str) : list str :=
  s :: match s with
       | [] => []
       | _ :: s' => tails s'
       end.

Definition is_some {A : Type} (o : option A) : bool :=
  match o with
  | Some _ => true
  | None => false
  end.

(** The page holds a contact block: some part of it matches the
    pattern. *)
Definition contains_block (html : str) : Prop :=
  exists pre w post, html = pre ++ w ++ post /\ den_seq pattern w.

(** The search for a block at every position of the page. *)
Definition has_block (html : str) : bool :=
  existsb (fun t => is_some (m_seq pattern t)) (tails html).

(** What the loop of [scrape_contacts] makes of one match. *)
Definition normalise_match (m : list str) : contact :=
  (strip (re_sub_ws (nth 0 m [])),
   strip (nth 1 m []),
   strip (replace_double_slash (nth 2 m []))).

(** What one step of the loop of [save_to_database] does to the table
    when it raises nothing: it skips the record or adds it. *)
Definition stepped (t : Db.table) (c : contact) : Db.table :=
  if Db.has_email (snd c) t then t
  else Db.Table
         (Db.rows t
          ++ [Db.Row (Db.largest_iid t + 1) (fst (fst c))
                (snd (fst c)) (snd c)])
         (Db.largest_iid t + 1).

(** The loop of [save_to_database] when no step raises. *)
Definition save_rows (t : Db.table) (cs : list contact) : Db.table :=
  fold_left
    (fun t' c =>
       if Db.has_email (snd c) t' then t'
       else Db.Table
              (Db.rows t'
               ++ [Db.Row (Db.largest_iid t' + 1) (fst (fst c))
                     (snd (fst c)) (snd c)])
              (Db.largest_iid t' + 1))
    cs t.

Definition contact_eqb (a b : contact) : bool :=
  Str.eqb (fst (fst a)) (fst (fst b))
  && Str.eqb (snd (fst a)) (snd (fst b))
  && Str.eqb (snd a) (snd b).

(** The lines of a text, each ended by a newline; [cur] is the line being
    read. *)
Fixpoint lines_from (cur : str) (s : str) : list str :=
  match s with
  | [] => emit cur
  | c :: s' =>
      if char_eqb c newline then cur :: lines_from [] s'
      else lines_from (cur ++ [c]) s'
  end.

Definition lines (s : str) : list str := lines_from [] s.

Definition one_line (s : str) : bool :=
  forallb (fun c => negb (char_eqb c newline)) s.

(** No field of the record holds a newline. *)
Definition on_one_line (c : contact) : bool :=
  one_line (fst (fst c)) && one_line (snd (fst c)) && one_line (snd c).

(** The number of rows of a table under an email. *)
Definition count_email (e : str) (t : Db.table) : nat :=
  length (filter (fun x => Str.eqb x e) (Db.emails t)).

Definition double_slash : str := [slash; slash].

(** [p in s]: the text [p] stands somewhere in [s]. *)
Fixpoint contains (p s : str) : bool :=
  starts_with p s ||
  match s with
  | [] => false
  | _ :: s' => contains p s'
  end.

(** [out] is [s] without its occurrences of [//], found from left to
    right: either [s] holds none, or [s] is a text [p] before the first
    one (no [//] begins in [p]), that occurrence, and a rest from which
    the others are deleted in the same way. *)
Inductive Deletes : str -> str -> Prop :=
| Deletes_none (p : str) :
    contains double_slash p = false -> Deletes p p
| Deletes_first (p rest out : str) :
    contains double_slash (p ++ [slash]) = false ->
    Deletes rest out ->
    Deletes (p ++ double_slash ++ rest) (p ++ out).

(** [r] is [s] without the whitespace at its two ends. *)
Definition Trims (s r : str) : Prop :=
  exists ws1 ws2,
    s = ws1 ++ r ++ ws2
    /\ forallb isspace ws1 = true /\ forallb isspace ws2 = true
    /\ starts_ws r = false /\ ends_ws r = false.

End Spec.

Import Spec.

(** ** The main loop, and more words for the properties *)

Module Loop.

(** The requests among the effects, and the error windows. *)
Fixpoint requests (es : list effect) : list str :=
  match es with
  | [] => []
  | Get url :: es' => url :: requests es'
  | ShowError _ :: es' => requests es'
  end.

Fixpoint dialogs (es : list effect) : list dialog :=
  match es with
  | [] => []
  | Get _ :: es' => dialogs es'
  | ShowError d :: es' => d :: dialogs es'
  end.

Definition is_click (ev : event) : bool :=
  match ev with
  | ClickFetch => true
  | EditUrl _ => false
  end.

(** The events of [root.mainloop()] one after the other, each with the
    network as it is when the event comes; the effects are those of all
    the events, in order. *)
Fixpoint run (ucd_other : char -> eaw)
    (steps : list ((str -> response) * event)) (g : gui)
  : list effect * gui :=
  match steps with
  | [] => ([], g)
  | (net, ev) :: steps' =>
      let '(es, g1) := handle ucd_other net ev g in
      let '(es', g2) := run ucd_other steps' g1 in
      (es ++ es', g2)
  end.

(** The text of the entry after the events: that of the last edit. *)
Fixpoint last_edit (steps : list ((str -> response) * event)) (text : str)
  : str :=
  match steps with
  | [] => text
  | (_, EditUrl new_text) :: steps' => last_edit steps' new_text
  | (_, ClickFetch) :: steps' => last_edit steps' text
  end.

(** The page holds [n] contact blocks one after the other, none over
    another. *)
Fixpoint blocks (n : nat) (html : str) : Prop :=
  match n with
  | O => True
  | S n' =>
      exists pre w rest,
        html = pre ++ w ++ rest /\ den_seq pattern w /\ blocks n' rest
  end.

(** The primary keys of a table. *)
Definition iids (t : Db.table) : list Z := map Db.iid (Db.rows t).

(** The two characters that close the [href] of the pattern. *)
Definition close_href : str := [dquote] ++ py ">".

(** The table without a record: the header row and the separator row. *)
Definition empty_table_text (ucd_other : char -> eaw) : str :=
  header_line ucd_other ++ [newline] ++ separator ++ [newline].

End Loop.

Import Loop.

(** * Facts *)

(** ** Whitespace, [strip] and [re.sub] *)

Module StrFacts.

Arguments isspace : simpl never.

Lemma char_eqb_refl (c : char) : char_eqb c c = true.
Proof. apply N.eqb_refl. Qed.

Lemma char_eqb_sym (a b : char) : char_eqb a b = char_eqb b a.
Proof. apply N.eqb_sym. Qed.

Lemma char_eqb_eq (a b : char) : char_eqb a b = true <-> a = b.
Proof. apply N.eqb_eq. Qed.

Lemma str_eqb_eq (a b : str) : Str.eqb a b = true <-> a = b.
Proof.
  revert b; induction a as [|x a IH]; intros [|y b]; simpl;
    try (split; [discriminate | discriminate]); try tauto.
  rewrite andb_true_iff, char_eqb_eq, IH.
  split; [intros [-> ->]; reflexivity | intros H; inversion H; auto].
Qed.

Lemma str_eqb_refl (a : str) : Str.eqb a a = true.
Proof. apply str_eqb_eq; reflexivity. Qed.

Lemma lstrip_decomp (s : str) :
  exists ws, s = ws ++ lstrip s /\ forallb isspace ws = true.
Proof.
  induction s as [|c s IH]; simpl.
  - exists []; auto.
  - destruct (isspace c) eqn:E.
    + destruct IH as (ws & Hs & Hw). exists (c :: ws); simpl.
      rewrite E, Hw. split; [f_equal; exact Hs | reflexivity].
    + exists []; auto.
Qed.

Lemma starts_ws_lstrip (s : str) : starts_ws (lstrip s) = false.
Proof.
  induction s as [|c s IH]; simpl; auto.
  destruct (isspace c) eqn:E; auto.
Qed.

Lemma lstrip_fixed (s : str) : starts_ws s = false -> lstrip s = s.
Proof. destruct s as [|c s]; simpl; auto. intros ->. reflexivity. Qed.

Lemma lstrip_snoc (l : str) (c : char) :
  isspace c = false -> lstrip (l ++ [c]) = lstrip l ++ [c].
Proof.
  intros Hc. induction l as [|x l IH]; simpl.
  - rewrite Hc. reflexivity.
  - destruct (isspace x); auto.
Qed.

Lemma rstrip_cons (c : char) (t : str) :
  isspace c = false -> rstrip (c :: t) = c :: rstrip t.
Proof.
  intros Hc. unfold rstrip. simpl rev.
  rewrite lstrip_snoc by exact Hc.
  rewrite rev_app_distr. reflexivity.
Qed.

Lemma rstrip_decomp (s : str) :
  exists ws, s = rstrip s ++ ws /\ forallb isspace ws = true.
Proof.
  destruct (lstrip_decomp (rev s)) as (ws & Hs & Hw).
  exists (rev ws). split.
  - unfold rstrip. rewrite <- rev_app_distr, <- Hs, rev_involutive.
    reflexivity.
  - rewrite forallb_forall in *. intros x Hx. apply Hw.
    apply in_rev. exact Hx.
Qed.

Lemma ends_ws_rstrip (s : str) : ends_ws (rstrip s) = false.
Proof.
  unfold ends_ws, rstrip. rewrite rev_involutive. apply starts_ws_lstrip.
Qed.

Lemma starts_ws_strip (s : str) : starts_ws (strip s) = false.
Proof.
  unfold strip. pose proof (starts_ws_lstrip s) as H.
  destruct (lstrip s) as [|c t]; [reflexivity|].
  simpl in H. rewrite rstrip_cons by exact H. exact H.
Qed.

Lemma ends_ws_strip (s : str) : ends_ws (strip s) = false.
Proof. apply ends_ws_rstrip. Qed.

Lemma single_spaced_app (a b : str) :
  single_spaced (a ++ b) = true ->
  single_spaced a = true /\ single_spaced b = true.
Proof.
  induction a as [|c a IH]; simpl; [auto|].
  rewrite !andb_true_iff. intros [[H1 H2] H3].
  destruct (IH H3) as [Ha Hb]. repeat split; auto.
  destruct a as [|d a]; [|exact H2].
  simpl. rewrite andb_false_r. reflexivity.
Qed.

Lemma single_spaced_strip (s : str) :
  single_spaced s = true -> single_spaced (strip s) = true.
Proof.
  intros H. unfold strip.
  destruct (lstrip_decomp s) as (ws & Hs & _).
  rewrite Hs in H. apply single_spaced_app in H. destruct H as [_ H].
  destruct (rstrip_decomp (lstrip s)) as (ws' & Hs' & _).
  rewrite Hs' in H. apply single_spaced_app in H. tauto.
Qed.

Lemma re_sub_ws_from_spaced (s : str) (in_run : bool) :
  single_spaced (re_sub_ws_from in_run s) = true
  /\ (in_run = true -> starts_ws (re_sub_ws_from in_run s) = false).
Proof.
  revert in_run. induction s as [|c s IH]; intros in_run; simpl.
  - auto.
  - destruct (isspace c) eqn:E.
    + destruct (IH true) as [H1 H2]. destruct in_run.
      * auto.
      * split; [|discriminate]. simpl.
        rewrite (H2 eq_refl), H1. reflexivity.
    + destruct (IH false) as [H1 _]. split.
      * simpl. rewrite E, H1. reflexivity.
      * intros _. simpl. exact E.
Qed.

(** [strip(re.sub(r'\s+', ' ', s))] is in normal form. *)
Lemma normalised_strip_re_sub (s : str) :
  normalised (strip (re_sub_ws s)) = true.
Proof.
  unfold normalised.
  rewrite starts_ws_strip, ends_ws_strip, single_spaced_strip; auto.
  apply re_sub_ws_from_spaced.
Qed.

Lemma words_from_all_ws (cur ws : str) :
  forallb isspace ws = true -> words_from cur ws = emit cur.
Proof.
  revert cur. induction ws as [|c ws IH]; intros cur; simpl; auto.
  rewrite andb_true_iff. intros [-> H].
  rewrite (IH [] H). apply app_nil_r.
Qed.

Lemma words_from_app_ws (cur a ws : str) :
  forallb isspace ws = true -> words_from cur (a ++ ws) = words_from cur a.
Proof.
  intros H. revert cur. induction a as [|c a IH]; intros cur; simpl.
  - apply words_from_all_ws, H.
  - destruct (isspace c); rewrite IH; reflexivity.
Qed.

Lemma words_ws_app (ws a : str) :
  forallb isspace ws = true -> words_from [] (ws ++ a) = words_from [] a.
Proof.
  induction ws as [|c ws IH]; simpl; auto.
  rewrite andb_true_iff. intros [-> H]. simpl. auto.
Qed.

Lemma words_strip (s : str) : words (strip s) = words s.
Proof.
  unfold words, strip.
  destruct (lstrip_decomp s) as (ws & Hs & Hw).
  destruct (rstrip_decomp (lstrip s)) as (ws' & Hs' & Hw').
  rewrite Hs at 2. rewrite words_ws_app by exact Hw.
  rewrite Hs' at 2. rewrite words_from_app_ws by exact Hw'.
  reflexivity.
Qed.

Lemma words_from_re_sub (s cur : str) (in_run : bool) :
  (in_run = true -> cur = []) ->
  words_from cur (re_sub_ws_from in_run s) = words_from cur s.
Proof.
  revert cur in_run. induction s as [|c s IH]; intros cur in_run Hb; simpl.
  - reflexivity.
  - destruct (isspace c) eqn:E.
    + destruct in_run.
      * rewrite (Hb eq_refl). simpl. apply IH. auto.
      * simpl. f_equal. apply IH. auto.
    + simpl. rewrite E. apply IH. discriminate.
Qed.

(** The normaliser keeps the words of the field, in their order. *)
Lemma words_strip_re_sub (s : str) : words (strip (re_sub_ws s)) = words s.
Proof.
  rewrite words_strip. apply words_from_re_sub. discriminate.
Qed.

End StrFacts.

Import StrFacts.

(** ** The matcher against the language of the pattern *)

Module ReFacts.

Lemma greedy_none cls k s : forall acc,
  greedy cls k acc s = None <->
  (forall w rest, s = w ++ rest -> forallb cls w = true ->
                  k (acc ++ w) rest = None).
Proof.
  induction s as [|c s IH]; intros acc; simpl.
  - split.
    + intros H w rest E _. symmetry in E. apply app_eq_nil in E.
      destruct E as [-> ->]. rewrite app_nil_r. exact H.
    + intros H. specialize (H [] [] eq_refl eq_refl).
      rewrite app_nil_r in H. exact H.
  - destruct (cls c) eqn:Ec.
    + split.
      * intros H w rest E Hw.
        destruct (greedy cls k (acc ++ [c]) s) eqn:G; [discriminate|].
        destruct w as [|x w]; simpl in E.
        -- subst rest. rewrite app_nil_r. exact H.
        -- inversion E; subst x s. simpl in Hw.
           apply andb_true_iff in Hw. destruct Hw as [_ Hw].
           pose proof (proj1 (IH (acc ++ [c])) G w rest eq_refl Hw) as R.
           rewrite <- app_assoc in R. exact R.
      * intros H.
        assert (G : greedy cls k (acc ++ [c]) s = None).
        { apply IH. intros w rest E Hw. rewrite <- app_assoc. simpl.
          apply H; [subst s; reflexivity | simpl; rewrite Ec; exact Hw]. }
        rewrite G. specialize (H [] (c :: s) eq_refl eq_refl).
        rewrite app_nil_r in H. exact H.
    + split.
      * intros H w rest E Hw. destruct w as [|x w]; simpl in E.
        -- subst rest. rewrite app_nil_r. exact H.
        -- inversion E; subst x. simpl in Hw. rewrite Ec in Hw.
           discriminate.
      * intros H. specialize (H [] (c :: s) eq_refl eq_refl).
        rewrite app_nil_r in H. exact H.
Qed.

Lemma greedy_some cls k s : forall acc r,
  greedy cls k acc s = Some r ->
  exists w rest, s = w ++ rest /\ forallb cls w = true
                 /\ k (acc ++ w) rest = Some r.
Proof.
  induction s as [|c s IH]; intros acc r; simpl.
  - intros H. exists [], []. simpl. rewrite app_nil_r. auto.
  - assert (Here : k acc (c :: s) = Some r ->
             exists w rest, c :: s = w ++ rest /\ forallb cls w = true
                            /\ k (acc ++ w) rest = Some r).
    { intros H. exists [], (c :: s). rewrite app_nil_r. auto. }
    destruct (cls c) eqn:Ec; [|exact Here].
    destruct (greedy cls k (acc ++ [c]) s) eqn:G; [|exact Here].
    intros H; inversion H; subst r0.
    destruct (IH _ _ G) as (w & rest & E & Hw & Hk).
    exists (c :: w), rest. simpl. rewrite Ec, Hw.
    rewrite <- app_assoc in Hk. subst s. auto.
Qed.

Lemma lazy_none cls k s : forall acc,
  lazy cls k acc s = None <->
  (forall w rest, s = w ++ rest -> forallb cls w = true ->
                  k (acc ++ w) rest = None).
Proof.
  induction s as [|c s IH]; intros acc; simpl.
  - split.
    + intros H w rest E _. symmetry in E. apply app_eq_nil in E.
      destruct E as [-> ->]. rewrite app_nil_r.
      destruct (k acc []); [discriminate | reflexivity].
    + intros H. specialize (H [] [] eq_refl eq_refl).
      rewrite app_nil_r in H. rewrite H. reflexivity.
  - split.
    + intros H w rest E Hw.
      destruct (k acc (c :: s)) eqn:K; [discriminate|].
      destruct w as [|x w]; simpl in E.
      * subst rest. rewrite app_nil_r. exact K.
      * inversion E; subst x s. simpl in Hw.
        apply andb_true_iff in Hw. destruct Hw as [Ec Hw].
        rewrite Ec in H.
        pose proof (proj1 (IH (acc ++ [c])) H w rest eq_refl Hw) as R.
        rewrite <- app_assoc in R. exact R.
    + intros H. pose proof (H [] (c :: s) eq_refl eq_refl) as K.
      rewrite app_nil_r in K. rewrite K.
      destruct (cls c) eqn:Ec; [|reflexivity].
      apply IH. intros w rest E Hw. rewrite <- app_assoc. simpl.
      apply H; [subst s; reflexivity | simpl; rewrite Ec; exact Hw].
Qed.

Lemma lazy_some cls k s : forall acc r,
  lazy cls k acc s = Some r ->
  exists w rest, s = w ++ rest /\ forallb cls w = true
                 /\ k (acc ++ w) rest = Some r.
Proof.
  induction s as [|c s IH]; intros acc r; simpl.
  - destruct (k acc []) eqn:K; [|discriminate].
    intros H; inversion H; subst r0.
    exists [], []. simpl. rewrite app_nil_r. auto.
  - destruct (k acc (c :: s)) eqn:K.
    + intros H; inversion H; subst r0.
      exists [], (c :: s). rewrite app_nil_r. auto.
    + destruct (cls c) eqn:Ec; [|discriminate].
      intros H. destruct (IH _ _ H) as (w & rest & E & Hw & Hk).
      exists (c :: w), rest. simpl. rewrite Ec, Hw.
      rewrite <- app_assoc in Hk. subst s. auto.
Qed.

Lemma starts_with_app (l rest : str) : starts_with l (l ++ rest) = true.
Proof.
  induction l as [|x l IH]; simpl; auto.
  rewrite char_eqb_refl. exact IH.
Qed.

Lemma starts_with_split (l s : str) :
  starts_with l s = true -> s = l ++ skipn (length l) s.
Proof.
  revert s. induction l as [|x l IH]; intros [|y s]; simpl; auto;
    try discriminate.
  rewrite andb_true_iff, char_eqb_eq. intros [-> H].
  f_equal. apply IH, H.
Qed.

Lemma skipn_length_app (l rest : str) : skipn (length l) (l ++ rest) = rest.
Proof. induction l; simpl; auto. Qed.

Lemma m_atom_none a k s :
  m_atom a k s = None <->
  (forall w rest, s = w ++ rest -> den_atom a w -> k w rest = None).
Proof.
  destruct a as [l|cls|cls|cls]; simpl.
  - destruct (starts_with l s) eqn:E.
    + split.
      * intros H w rest -> ->. rewrite skipn_length_app in H. exact H.
      * intros H. apply H; [apply starts_with_split, E | reflexivity].
    + split; [|reflexivity].
      intros _ w rest -> ->. rewrite starts_with_app in E. discriminate.
  - apply (greedy_none cls k s []).
  - destruct s as [|c s].
    + split; [|reflexivity].
      intros _ w rest E [Hne _]. symmetry in E. apply app_eq_nil in E.
      tauto.
    + destruct (cls c) eqn:Ec.
      * rewrite greedy_none. split.
        -- intros H w rest E [Hne Hw]. destruct w as [|x w]; [tauto|].
           simpl in E. inversion E; subst x s. simpl in Hw.
           apply andb_true_iff in Hw. apply (H w rest eq_refl). tauto.
        -- intros H w rest -> Hw. apply (H (c :: w) rest eq_refl).
           split; [discriminate|]. simpl. rewrite Ec. exact Hw.
      * split; [|reflexivity].
        intros _ w rest E [Hne Hw]. destruct w as [|x w]; [tauto|].
        simpl in E. inversion E; subst x. simpl in Hw.
        rewrite Ec in Hw. discriminate.
  - apply (lazy_none cls k s []).
Qed.

Lemma m_atom_some a k s r :
  m_atom a k s = Some r ->
  exists w rest, s = w ++ rest /\ den_atom a w /\ k w rest = Some r.
Proof.
  destruct a as [l|cls|cls|cls]; simpl.
  - destruct (starts_with l s) eqn:E; [|discriminate].
    intros H. exists l, (skipn (length l) s).
    split; [apply starts_with_split, E | auto].
  - intros H. apply greedy_some in H. exact H.
  - destruct s as [|c s]; [discriminate|].
    destruct (cls c) eqn:Ec; [|discriminate].
    intros H. apply greedy_some in H.
    destruct H as (w & rest & E & Hw & Hk).
    exists (c :: w), rest. simpl. rewrite Ec, Hw. subst s.
    repeat split; auto. discriminate.
  - intros H. apply lazy_some in H. exact H.
Qed.

(** The matcher fails only where no text matches the pattern. *)
Lemma m_seq_none p : forall s,
  m_seq p s = None <-> (forall w rest, s = w ++ rest -> ~ den_seq p w).
Proof.
  induction p as [|n p IH]; intros s; simpl.
  - split; [discriminate|].
    intros H. exfalso. apply (H [] s eq_refl eq_refl).
  - assert (K : (forall w rest, s = w ++ rest -> den_atom (atom_of n) w ->
                                m_seq p rest = None)
                <-> (forall w rest, s = w ++ rest ->
                       ~ (exists w1 w2, w = w1 ++ w2
                            /\ den_atom (atom_of n) w1 /\ den_seq p w2))).
    { split.
      - intros H w rest E (w1 & w2 & Ew & Ha & Hp). subst w.
        rewrite <- app_assoc in E.
        apply (proj1 (IH _) (H w1 (w2 ++ rest) E Ha) w2 rest eq_refl Hp).
      - intros H w rest E Ha. apply IH. intros w2 rest2 E2 Hp.
        apply (H (w ++ w2) rest2).
        + subst s rest. apply app_assoc.
        + exists w, w2. auto. }
    destruct n as [a|a]; simpl in *; rewrite m_atom_none, <- K.
    + tauto.
    + split; intros H w rest E Ha; specialize (H w rest E Ha).
      * destruct (m_seq p rest) as [[? ?]|]; [discriminate | reflexivity].
      * rewrite H. reflexivity.
Qed.

(** Where the matcher succeeds, the text it took matches the pattern, and
    it captured one text for each group. *)
Lemma m_seq_some p : forall s caps rest,
  m_seq p s = Some (caps, rest) ->
  exists w, s = w ++ rest /\ den_seq p w /\ length caps = groups p.
Proof.
  induction p as [|n p IH]; intros s caps rest; simpl.
  - intros H; inversion H; subst. exists []. auto.
  - destruct n as [a|a]; intros H; apply m_atom_some in H;
      destruct H as (w1 & rest1 & E & Ha & Hk).
    + destruct (IH _ _ _ Hk) as (w2 & E2 & Hp & Hl).
      exists (w1 ++ w2). rewrite <- app_assoc. subst s rest1.
      repeat split; auto. exists w1, w2. auto.
    + destruct (m_seq p rest1) as [[caps' fin]|] eqn:M; [|discriminate].
      inversion Hk; subst caps fin.
      destruct (IH _ _ _ M) as (w2 & E2 & Hp & Hl).
      exists (w1 ++ w2). rewrite <- app_assoc. subst s rest1. simpl.
      repeat split; auto. exists w1, w2. auto.
Qed.

End ReFacts.

Import ReFacts.

(** ** [findall] and the extractor *)

Module ExtractFacts.

Lemma findall_fuel_enough p : forall n m s,
  length s < n -> length s < m -> findall_fuel n p s = findall_fuel m p s.
Proof.
  induction n as [|n IH]; intros m s Hn Hm; [lia|].
  destruct m as [|m]; [lia|]. simpl.
  destruct (m_seq p s) as [[caps rest]|].
  - f_equal. destruct (Nat.ltb (length rest) (length s)) eqn:L.
    + apply Nat.ltb_lt in L. apply IH; lia.
    + destruct s as [|c s]; [reflexivity|]. simpl in *. apply IH; lia.
  - destruct s as [|c s]; [reflexivity|]. simpl in *. apply IH; lia.
Qed.

(** The equation of [findall]: the fuel it starts with is enough. *)
Lemma findall_unfold p s :
  findall p s =
  match m_seq p s with
  | Some (caps, rest) =>
      caps :: (if Nat.ltb (length rest) (length s) then findall p rest
               else match s with
                    | [] => []
                    | _ :: s' => findall p s'
                    end)
  | None =>
      match s with
      | [] => []
      | _ :: s' => findall p s'
      end
  end.
Proof.
  unfold findall at 1. simpl.
  destruct (m_seq p s) as [[caps rest]|].
  - f_equal. destruct (Nat.ltb (length rest) (length s)) eqn:L.
    + apply Nat.ltb_lt in L. apply findall_fuel_enough; lia.
    + destruct s as [|c s]; reflexivity.
  - destruct s as [|c s]; reflexivity.
Qed.

Lemma findall_fuel_In p : forall n s m,
  In m (findall_fuel n p s) -> exists t rest, m_seq p t = Some (m, rest).
Proof.
  induction n as [|n IH]; intros s m; simpl; [tauto|].
  destruct (m_seq p s) as [[caps rest]|] eqn:M.
  - intros [<-|H]; [eauto|].
    destruct (Nat.ltb (length rest) (length s)); [eauto|].
    destruct s; [contradiction | eauto].
  - destruct s; [contradiction | eauto].
Qed.

Lemma findall_fuel_nil p : forall n s,
  (forall t, In t (tails s) -> m_seq p t = None) -> findall_fuel n p s = [].
Proof.
  induction n as [|n IH]; intros s H; simpl; [reflexivity|].
  rewrite (H s) by (destruct s; left; reflexivity).
  destruct s as [|c s]; [reflexivity|].
  apply IH. intros t Ht. apply H. right. exact Ht.
Qed.

Lemma In_tails (t s : str) : In t (tails s) <-> exists pre, s = pre ++ t.
Proof.
  split.
  - induction s as [|c s IH]; simpl.
    + intros [<-|[]]. exists []. reflexivity.
    + intros [<-|H]; [exists []; reflexivity|].
      destruct (IH H) as (pre & ->). exists (c :: pre). reflexivity.
  - intros (pre & ->). induction pre as [|c pre IH]; simpl.
    + destruct t; left; reflexivity.
    + right. exact IH.
Qed.

(** The search at every position decides whether the page holds a block. *)
Lemma has_block_spec (html : str) :
  has_block html = true <-> contains_block html.
Proof.
  unfold has_block, contains_block. rewrite existsb_exists. split.
  - intros (t & Ht & Hm). apply In_tails in Ht. destruct Ht as (pre & ->).
    destruct (m_seq pattern t) as [[caps rest]|] eqn:M; [|discriminate].
    apply m_seq_some in M. destruct M as (w & -> & Hw & _).
    exists pre, w, rest. auto.
  - intros (pre & w & post & -> & Hw).
    exists (w ++ post). split; [apply In_tails; eauto|].
    destruct (m_seq pattern (w ++ post)) eqn:M; [reflexivity|].
    exfalso. apply (proj1 (m_seq_none _ _) M w post eq_refl Hw).
Qed.

Lemma no_block_findall (html : str) :
  ~ contains_block html -> findall pattern html = [].
Proof.
  intros H. apply findall_fuel_nil. intros t Ht.
  destruct (m_seq pattern t) eqn:M; [|reflexivity].
  exfalso. apply H, has_block_spec. unfold has_block.
  apply existsb_exists. exists t. rewrite M. auto.
Qed.

Lemma groups_pattern : groups pattern = 3.
Proof. reflexivity. Qed.

(** Every match of [pattern] carries its three groups. *)
Lemma findall_pattern_three (html : str) (m : list str) :
  In m (findall pattern html) -> exists a b c, m = [a; b; c].
Proof.
  intros H. apply findall_fuel_In in H. destruct H as (t & rest & M).
  apply m_seq_some in M. destruct M as (_ & _ & _ & L).
  rewrite groups_pattern in L.
  destruct m as [|a [|b [|c [|d m]]]]; try discriminate. eauto.
Qed.

(** A match of [pattern] takes text: it begins with [<div]. *)
Lemma pattern_takes_text (s : str) (caps : list str) (rest : str) :
  m_seq pattern s = Some (caps, rest) -> length rest < length s.
Proof.
  intros M. apply m_seq_some in M. destruct M as (w & -> & Hw & _).
  destruct Hw as (w1 & w2 & -> & Hl & _). simpl in Hl. subst w1.
  rewrite !length_app. simpl. lia.
Qed.

(** [findall] on [pattern]: each search starts where the last match
    ended. *)
Lemma findall_pattern_unfold (s : str) :
  findall pattern s =
  match m_seq pattern s with
  | Some (caps, rest) => caps :: findall pattern rest
  | None =>
      match s with
      | [] => []
      | _ :: s' => findall pattern s'
      end
  end.
Proof.
  rewrite findall_unfold at 1.
  destruct (m_seq pattern s) as [[caps rest]|] eqn:M; [|reflexivity].
  apply pattern_takes_text in M. apply Nat.ltb_lt in M. rewrite M.
  reflexivity.
Qed.

Lemma scrape_loop (ms : list (list str)) : forall acc,
  (forall m, In m ms -> exists a b c, m = [a; b; c]) ->
  fold_left (fun acc m => bind acc (fun contacts => scrape_step contacts m))
    ms (Done acc)
  = Done (acc ++ map normalise_match ms).
Proof.
  induction ms as [|m ms IH]; intros acc H; simpl.
  - rewrite app_nil_r. reflexivity.
  - destruct (H m (or_introl eq_refl)) as (a & b & c & ->).
    unfold scrape_step at 2. simpl.
    rewrite IH by (intros; apply H; right; assumption).
    rewrite <- app_assoc. reflexivity.
Qed.

(** The extractor never raises: it maps the loop body over the matches. *)
Lemma extract_contacts_map (html : str) :
  extract_contacts html = Done (map normalise_match (findall pattern html)).
Proof.
  unfold extract_contacts. rewrite scrape_loop; [reflexivity|].
  apply findall_pattern_three.
Qed.

End ExtractFacts.

Import ExtractFacts.

(** ** [replace('//', '')] *)

Module ReplaceFacts.

Lemma replace_cons_other (c : char) (s : str) :
  char_eqb c slash = false ->
  replace_double_slash (c :: s) = c :: replace_double_slash s.
Proof.
  intros H. destruct s as [|d s]; cbn [replace_double_slash]; [reflexivity|].
  rewrite H. reflexivity.
Qed.

Lemma replace_pair (s : str) :
  replace_double_slash (slash :: slash :: s) = replace_double_slash s.
Proof. reflexivity. Qed.

Lemma replace_slash_other (d : char) (s : str) :
  char_eqb d slash = false ->
  replace_double_slash (slash :: d :: s)
  = slash :: replace_double_slash (d :: s).
Proof.
  intros H. cbn [replace_double_slash]. rewrite H, andb_false_r.
  reflexivity.
Qed.

(** An occurrence after text without slashes is deleted, wherever it is. *)
Lemma replace_after_plain (a b : str) :
  forallb (fun c => negb (char_eqb c slash)) a = true ->
  replace_double_slash (a ++ double_slash ++ b)
  = a ++ replace_double_slash b.
Proof.
  induction a as [|c a IH]; intros H.
  - reflexivity.
  - simpl in H. apply andb_true_iff in H. destruct H as [Hc H].
    apply negb_true_iff in Hc.
    change ((c :: a) ++ double_slash ++ b) with (c :: (a ++ double_slash ++ b)).
    rewrite replace_cons_other by exact Hc.
    rewrite IH by exact H. reflexivity.
Qed.

(** The three shapes of a string the scan distinguishes. *)
Lemma scan_cases (P : str -> Prop) :
  P [] ->
  (forall s, P s -> P (slash :: slash :: s)) ->
  (forall s, P s -> forall c, char_eqb c slash = false -> P (c :: s)) ->
  P [slash] ->
  (forall d s, char_eqb d slash = false -> P (d :: s) -> P (slash :: d :: s)) ->
  forall s, P s.
Proof.
  intros H0 Hpair Hother Hlast Hso.
  assert (G : forall n s, length s <= n -> P s).
  { induction n as [|n IH]; intros s L.
    - destruct s; [exact H0 | simpl in L; lia].
    - destruct s as [|c s]; [exact H0|].
      destruct (char_eqb c slash) eqn:Ec.
      + apply char_eqb_eq in Ec. subst c.
        destruct s as [|d s]; [exact Hlast|].
        destruct (char_eqb d slash) eqn:Ed.
        * apply char_eqb_eq in Ed. subst d. apply Hpair, IH.
          simpl in L. lia.
        * apply Hso; [exact Ed|]. apply IH. simpl in *. lia.
      + apply Hother; [|exact Ec]. apply IH. simpl in L. lia. }
  intros s. apply (G (length s)). lia.
Qed.

(** What [replace] returns holds no [//]. *)
Lemma replace_no_double_slash (s : str) :
  contains double_slash (replace_double_slash s) = false.
Proof.
  induction s as [| s IH | s IH c Hc | | d s Hd IH] using scan_cases.
  - reflexivity.
  - rewrite replace_pair. exact IH.
  - rewrite replace_cons_other by exact Hc.
    cbn [contains]. rewrite IH. cbn [starts_with double_slash].
    rewrite (char_eqb_sym slash c), Hc. reflexivity.
  - reflexivity.
  - rewrite replace_slash_other by exact Hd.
    cbn [contains]. rewrite IH.
    rewrite replace_cons_other by exact Hd.
    cbn [starts_with double_slash].
    rewrite (char_eqb_sym slash d), Hd, andb_false_r. reflexivity.
Qed.

Lemma starts_with_app_r (p x post : str) :
  starts_with p x = true -> starts_with p (x ++ post) = true.
Proof.
  revert x. induction p as [|c p IH]; intros [|y x]; simpl; auto;
    try discriminate.
  rewrite !andb_true_iff. intros [H1 H2]. auto.
Qed.

Lemma contains_app_r (p x post : str) :
  contains p x = true -> contains p (x ++ post) = true.
Proof.
  induction x as [|y x IH]; simpl.
  - rewrite orb_false_r. intros H.
    destruct p; [|discriminate]. destruct post; reflexivity.
  - rewrite !orb_true_iff. intros [H|H].
    + left. apply (starts_with_app_r _ (y :: x) post H).
    + right. apply IH, H.
Qed.

Lemma contains_app_l (p pre x : str) :
  contains p x = true -> contains p (pre ++ x) = true.
Proof.
  intros H. induction pre as [|y pre IH]; simpl; [exact H|].
  rewrite IH. apply orb_true_r.
Qed.

(** An email that holds [//] does not come out as it went in. *)
Lemma replace_alters (raw : str) :
  contains double_slash raw = true ->
  strip (replace_double_slash raw) <> raw.
Proof.
  intros H E.
  pose proof (replace_no_double_slash raw) as N.
  destruct (lstrip_decomp (replace_double_slash raw)) as (ws & E1 & _).
  destruct (rstrip_decomp (lstrip (replace_double_slash raw)))
    as (ws' & E2 & _).
  fold (strip (replace_double_slash raw)) in E2. rewrite E in E2.
  rewrite E2 in E1. rewrite E1 in N.
  rewrite contains_app_l in N; [discriminate|].
  apply contains_app_r, H.
Qed.

Lemma replace_fixed (s : str) :
  contains double_slash s = false -> replace_double_slash s = s.
Proof.
  induction s as [| s IH | s IH c Hc | | d s Hd IH] using scan_cases;
    intros H.
  - reflexivity.
  - vm_compute in H. discriminate.
  - rewrite replace_cons_other by exact Hc. f_equal. apply IH.
    cbn [contains] in H. apply orb_false_iff in H. tauto.
  - reflexivity.
  - rewrite replace_slash_other by exact Hd. f_equal. apply IH.
    cbn [contains] in H. apply orb_false_iff in H. tauto.
Qed.

(** Before the first [//] of a string [replace] changes nothing. *)
Lemma replace_after_first (p rest : str) :
  contains double_slash (p ++ [slash]) = false ->
  replace_double_slash (p ++ double_slash ++ rest)
  = p ++ replace_double_slash rest.
Proof.
  induction p as [| p IH | p IH c Hc | | d p Hd IH] using scan_cases;
    intros H.
  - reflexivity.
  - vm_compute in H. discriminate.
  - cbn [app]. rewrite replace_cons_other by exact Hc. f_equal. apply IH.
    cbn [app contains] in H. apply orb_false_iff in H. tauto.
  - vm_compute in H. discriminate.
  - change ((slash :: d :: p) ++ double_slash ++ rest)
      with (slash :: d :: (p ++ double_slash ++ rest)).
    rewrite replace_slash_other by exact Hd. cbn [app]. f_equal.
    apply (IH). cbn [app contains] in H. apply orb_false_iff in H. tauto.
Qed.

Lemma Deletes_replace_eq (s out : str) :
  Deletes s out -> out = replace_double_slash s.
Proof.
  induction 1 as [p Hp | p rest out Hp _ IH].
  - symmetry. apply replace_fixed, Hp.
  - rewrite replace_after_first by exact Hp. rewrite IH. reflexivity.
Qed.

Lemma Deletes_cons (c : char) (s out : str) :
  starts_with double_slash (c :: s) = false ->
  Deletes s out -> Deletes (c :: s) (c :: out).
Proof.
  intros Hc D. destruct D as [p Hp | p rest out Hp D].
  - apply Deletes_none. cbn [contains]. rewrite Hc, Hp. reflexivity.
  - apply (Deletes_first (c :: p) rest out); [|exact D].
    cbn [app contains]. rewrite Hp, orb_false_r.
    destruct p as [|y p]; cbn [app starts_with double_slash] in *;
      rewrite ?andb_true_r in *; exact Hc.
Qed.

(** [replace] deletes the occurrences of [//], the leftmost first. *)
Lemma replace_Deletes (s : str) : Deletes s (replace_double_slash s).
Proof.
  induction s as [| s IH | s IH c Hc | | d s Hd IH] using scan_cases.
  - apply Deletes_none. reflexivity.
  - rewrite replace_pair.
    apply (Deletes_first [] s (replace_double_slash s)); [reflexivity|].
    exact IH.
  - rewrite replace_cons_other by exact Hc.
    apply Deletes_cons; [|exact IH].
    cbn [starts_with double_slash].
    rewrite (char_eqb_sym slash c), Hc. reflexivity.
  - apply Deletes_none. reflexivity.
  - rewrite replace_slash_other by exact Hd.
    apply Deletes_cons; [|exact IH].
    cbn [starts_with double_slash].
    rewrite (char_eqb_sym slash d), Hd, andb_false_r. reflexivity.
Qed.

Lemma lstrip_ws_app (ws x : str) :
  forallb isspace ws = true -> lstrip (ws ++ x) = lstrip x.
Proof.
  induction ws as [|c ws IH]; simpl; [reflexivity|].
  rewrite andb_true_iff. intros [-> H]. auto.
Qed.

(** [strip] takes the whitespace off the two ends, and nothing else
    does. *)
Lemma Trims_strip (s r : str) : Trims s r <-> r = strip s.
Proof.
  split.
  - intros (ws1 & ws2 & -> & H1 & H2 & Hs & He).
    unfold strip. rewrite lstrip_ws_app by exact H1.
    assert (L : lstrip (r ++ ws2) = r ++ ws2 \/ (r = [] /\ lstrip ws2 = [])).
    { destruct r as [|c r].
      - right. split; [reflexivity|].
        rewrite <- (app_nil_r ws2). rewrite lstrip_ws_app by exact H2.
        reflexivity.
      - left. apply lstrip_fixed. exact Hs. }
    destruct L as [L|[-> L]].
    + rewrite L. unfold rstrip. rewrite rev_app_distr.
      rewrite lstrip_ws_app.
      * rewrite lstrip_fixed by exact He. symmetry. apply rev_involutive.
      * rewrite forallb_forall in *. intros x Hx. apply H2.
        apply in_rev. exact Hx.
    + simpl. rewrite L. reflexivity.
  - intros ->. destruct (lstrip_decomp s) as (ws1 & E1 & H1).
    destruct (rstrip_decomp (lstrip s)) as (ws2 & E2 & H2).
    fold (strip s) in E2. exists ws1, ws2. rewrite <- E2.
    repeat split; auto using starts_ws_strip, ends_ws_strip.
Qed.

End ReplaceFacts.

Import ReplaceFacts.

(** ** Widths and padding *)

Module WidthFacts.

Section Unicode.

Variable ucd_other : char -> eaw.

Lemma width_loop (s : str) : forall acc : Z,
  fold_left
    (fun (w : Z) (ch : char) =>
       if in_FWA (east_asian_width ucd_other ch)
       then (w + 2)%Z else (w + 1)%Z) s acc
  = (acc + column_sum ucd_other s)%Z.
Proof.
  induction s as [|c s IH]; intros acc; simpl.
  - unfold column_sum. simpl. lia.
  - rewrite IH. unfold column_sum, columns. simpl.
    destruct (in_FWA (east_asian_width ucd_other c)); lia.
Qed.

Lemma width_sum (s : str) :
  get_display_width ucd_other s = column_sum ucd_other s.
Proof. unfold get_display_width. rewrite width_loop. lia. Qed.

Lemma csum_app (a b : str) :
  column_sum ucd_other (a ++ b)
  = (column_sum ucd_other a + column_sum ucd_other b)%Z.
Proof.
  unfold column_sum. induction a as [|c a IH]; simpl; [reflexivity|].
  rewrite IH. lia.
Qed.

Lemma csum_spaces (n : nat) :
  column_sum ucd_other (repeat space n) = Z.of_nat n.
Proof.
  unfold column_sum. induction n as [|n IH]; [reflexivity|].
  cbn [repeat map fold_right]. rewrite IH.
  change (columns ucd_other space) with 1%Z. lia.
Qed.

Lemma csum_narrow (s : str) :
  Forall (fun c => in_FWA (east_asian_width ucd_other c) = false) s ->
  column_sum ucd_other s = Z.of_nat (length s).
Proof.
  unfold column_sum. induction 1 as [|c s Hc _ IH]; [reflexivity|].
  cbn [map fold_right length]. rewrite IH. unfold columns. rewrite Hc. lia.
Qed.

Lemma csum_wide (s : str) :
  Forall (is_wide ucd_other) s ->
  column_sum ucd_other s = (2 * Z.of_nat (length s))%Z.
Proof.
  unfold column_sum. induction 1 as [|c s Hc _ IH]; [reflexivity|].
  cbn [map fold_right length]. rewrite IH. unfold columns.
  unfold is_wide in Hc. rewrite Hc. lia.
Qed.

(** No character of Basic Latin counts for two columns. *)
Lemma ascii_narrow (c : char) :
  is_ascii c -> in_FWA (east_asian_width ucd_other c) = false.
Proof.
  unfold is_ascii, east_asian_width. intros H.
  destruct (c <? 32)%N; [reflexivity|].
  destruct (c <? 127)%N; [reflexivity|].
  destruct (c <? 128)%N eqn:E; [reflexivity|].
  apply N.ltb_ge in E. lia.
Qed.

Lemma pad_string_eq (s : str) (w : Z) :
  pad_string ucd_other s w
  = s ++ repeat space (Z.to_nat (w - get_display_width ucd_other s)).
Proof.
  unfold pad_string, times. do 2 f_equal. lia.
Qed.

Lemma width_pad_string (s : str) (w : Z) :
  get_display_width ucd_other (pad_string ucd_other s w)
  = Z.max w (get_display_width ucd_other s).
Proof.
  rewrite pad_string_eq, !width_sum, csum_app, csum_spaces.
  rewrite <- width_sum. lia.
Qed.

End Unicode.

End WidthFacts.

Import WidthFacts.

(** ** The store *)

Module DbFacts.

Import Db.

Lemma has_email_In (e : str) (t : table) :
  has_email e t = true <-> In e (emails t).
Proof.
  unfold has_email, emails. rewrite existsb_exists, in_map_iff.
  split; intros (r & H1 & H2).
  - apply str_eqb_eq in H2. eauto.
  - exists r. split; [exact H2 | apply str_eqb_eq, H1].
Qed.

Lemma fold_max_base (l : list row) (b : Z) :
  (b <= fold_right (fun r m => Z.max (iid r) m) b l)%Z.
Proof. induction l as [|r l IH]; simpl; lia. Qed.

Lemma fold_max_In (l : list row) (b : Z) (r : row) :
  In r l ->
  (iid r <= fold_right (fun r m => Z.max (iid r) m) b l)%Z.
Proof.
  induction l as [|x l IH]; simpl; [tauto|].
  intros [->|H]; [lia|]. specialize (IH H). lia.
Qed.

Lemma fold_max_le (l : list row) (b c : Z) :
  (b <= c)%Z -> (forall r, In r l -> (iid r <= c)%Z) ->
  (fold_right (fun r m => Z.max (iid r) m) b l <= c)%Z.
Proof.
  intros Hb. induction l as [|x l IH]; simpl; intros H; [exact Hb|].
  assert (iid x <= c)%Z by (apply H; left; reflexivity).
  assert (fold_right (fun r m => Z.max (iid r) m) b l <= c)%Z
    by (apply IH; intros r Hr; apply H; right; exact Hr).
  lia.
Qed.

(** After an insertion the largest key is the one just given. *)
Lemma largest_iid_insert (t : table) (n ti e : str) :
  largest_iid
    (Table (rows t ++ [Row (largest_iid t + 1) n ti e])
       (largest_iid t + 1))
  = (largest_iid t + 1)%Z.
Proof.
  unfold largest_iid at 1. cbn [rows seq].
  apply Z.le_antisymm; [|apply fold_max_base].
  apply fold_max_le; [lia|]. intros r Hr. apply in_app_iff in Hr.
  destruct Hr as [Hr|[<-|[]]]; [|simpl; lia].
  pose proof (fold_max_In (rows t) (seq t) r Hr) as H.
  fold (largest_iid t) in H. lia.
Qed.

Section Engine.

Variable too_big : contact -> bool.

(** On a record that can be stored, with a key left, one step of the
    loop skips or appends. *)
Lemma save_step_ok (t : table) (c : contact) :
  storable too_big c = true -> (largest_iid t < max_rowid)%Z ->
  save_step too_big t c = Done (stepped t c).
Proof.
  destruct c as [[n ti] e]. unfold storable, save_step, execute_insert,
    stepped. cbn [fst snd].
  rewrite andb_true_iff, !negb_true_iff. intros [-> ->] L.
  apply Z.leb_gt in L. rewrite L.
  destruct (has_email e t); reflexivity.
Qed.

Lemma save_step_done (t t1 : table) (c : contact) :
  save_step too_big t c = Done t1 ->
  t1 = t
  \/ ((largest_iid t < max_rowid)%Z
      /\ t1 = Table (rows t ++ [Row (largest_iid t + 1) (fst (fst c))
                                   (snd (fst c)) (snd c)])
                    (largest_iid t + 1)).
Proof.
  destruct c as [[n ti] e]. unfold save_step, execute_insert.
  cbn [fst snd].
  destruct (has_surrogate n || has_surrogate ti || has_surrogate e);
    [discriminate|].
  destruct (too_big (n, ti, e)); [discriminate|].
  destruct (max_rowid <=? largest_iid t)%Z eqn:L; [discriminate|].
  apply Z.leb_gt in L.
  destruct (has_email e t); intros H; inversion H; auto.
Qed.


Lemma loop_from_raised (cs : list contact) (e : exn) :
  fold_left (fun acc c => bind acc (fun t' => save_step too_big t' c))
    cs (Raised e)
  = Raised e.
Proof. induction cs as [|c cs IH]; simpl; auto. Qed.

Lemma save_loop_cons (t : table) (c : contact) (cs : list contact) :
  save_loop too_big t (c :: cs)
  = bind (save_step too_big t c) (fun t1 => save_loop too_big t1 cs).
Proof.
  unfold save_loop. simpl.
  destruct (save_step too_big t c); [reflexivity | apply loop_from_raised].
Qed.


Lemma largest_stepped (t : table) (c : contact) :
  (largest_iid t <= largest_iid (stepped t c) <= largest_iid t + 1)%Z.
Proof.
  unfold stepped. destruct (has_email (snd c) t); [lia|].
  rewrite largest_iid_insert. lia.
Qed.

Lemma save_rows_cons (t : table) (c : contact) (cs : list contact) :
  save_rows t (c :: cs) = save_rows (stepped t c) cs.
Proof. reflexivity. Qed.

Lemma largest_save_rows (cs : list contact) : forall t : table,
  (largest_iid t <= largest_iid (save_rows t cs)
   <= largest_iid t + Z.of_nat (length cs))%Z.
Proof.
  induction cs as [|c cs IH]; intros t.
  - simpl. lia.
  - rewrite save_rows_cons. specialize (IH (stepped t c)).
    pose proof (largest_stepped t c). cbn [length]. lia.
Qed.

(** On records that can be stored, with keys left for all of them, the
    loop raises nothing. *)
Lemma save_loop_ok (cs : list contact) : forall t : table,
  Forall (fun c => storable too_big c = true) cs ->
  (largest_iid t + Z.of_nat (length cs) <= max_rowid)%Z ->
  save_loop too_big t cs = Done (save_rows t cs).
Proof.
  induction cs as [|c cs IH]; intros t F L; [reflexivity|].
  inversion F as [|? ? Hc Hcs]; subst. cbn [length] in L.
  rewrite save_loop_cons, save_step_ok by (auto; lia). cbn [bind].
  rewrite save_rows_cons. apply IH; [exact Hcs|].
  pose proof (largest_stepped t c). lia.
Qed.

Lemma save_loop_known (cs : list contact) (t : table) :
  Forall (fun c => storable too_big c = true) cs ->
  (largest_iid t < max_rowid)%Z ->
  (forall c, In c cs -> has_email (snd c) t = true) ->
  save_loop too_big t cs = Done t.
Proof.
  induction cs as [|c cs IH]; intros F L H; [reflexivity|].
  inversion F as [|? ? Hc Hcs]; subst.
  rewrite save_loop_cons, save_step_ok by auto. unfold stepped.
  rewrite (H c (or_introl eq_refl)). cbn [bind].
  apply IH; auto. intros c' I. apply H. right. exact I.
Qed.


Lemma save_to_database_ok (t : table) (cs : list contact) :
  Forall (fun c => storable too_big c = true) cs ->
  (largest_iid t + Z.of_nat (length cs) <= max_rowid)%Z ->
  save_to_database too_big (Some t) cs = (Some (save_rows t cs), Done tt).
Proof.
  intros F L. unfold save_to_database. rewrite save_loop_ok by assumption.
  reflexivity.
Qed.


End Engine.

Lemma first_with_app (e : str) (a b : list contact) :
  first_with e (a ++ b) =
  match first_with e a with
  | Some c => Some c
  | None => first_with e b
  end.
Proof.
  unfold first_with. induction a as [|c a IH]; simpl; [reflexivity|].
  destruct (Str.eqb (snd c) e); auto.
Qed.

Lemma first_with_none (e : str) (t : table) :
  has_email e t = false -> first_with e (stored t) = None.
Proof.
  unfold has_email, first_with, stored.
  induction (rows t) as [|r l IH]; simpl; [reflexivity|].
  destruct (Str.eqb (email r) e); [discriminate | exact IH].
Qed.

Lemma first_with_some (e : str) (t : table) :
  has_email e t = true ->
  exists c, first_with e (stored t) = Some c.
Proof.
  unfold has_email, first_with, stored.
  induction (rows t) as [|r l IH]; simpl; [discriminate|].
  destruct (Str.eqb (email r) e); eauto.
Qed.

Lemma NoDup_snoc (x : str) (l : list str) :
  NoDup l -> ~ In x l -> NoDup (l ++ [x]).
Proof.
  induction 1 as [|y l Hy ND IH]; intros Hx; simpl.
  - constructor; [tauto | constructor].
  - constructor.
    + rewrite in_app_iff. simpl. intros [I|[E|[]]]; [tauto|].
      apply Hx. left. symmetry. exact E.
    + apply IH. intros I. apply Hx. right. exact I.
Qed.

(** What the loop leaves: the rows there were, then the new ones; under
    each email the record first written; no email twice. *)
Lemma save_rows_spec (cs : list contact) : forall t,
  NoDup (emails t) ->
  (exists added, rows (save_rows t cs) = rows t ++ added)
  /\ (forall e, first_with e (stored (save_rows t cs)) =
                match first_with e (stored t) with
                | Some c => Some c
                | None => first_with e cs
                end)
  /\ NoDup (emails (save_rows t cs)).
Proof.
  induction cs as [|c cs IH]; intros t ND.
  - simpl. split; [exists []; rewrite app_nil_r; reflexivity|].
    split; [|exact ND].
    intros e. destruct (first_with e (stored t)); reflexivity.
  - cbn [save_rows fold_left].
    destruct (has_email (snd c) t) eqn:Hc.
    + destruct (IH t ND) as (Ha & Hf & Hn). fold (save_rows t cs).
      split; [exact Ha|]. split; [|exact Hn].
      intros e. rewrite Hf.
      destruct (first_with e (stored t)) eqn:F; [reflexivity|].
      unfold first_with at 2. simpl.
      destruct (Str.eqb (snd c) e) eqn:E; [|reflexivity].
      apply str_eqb_eq in E. subst e.
      destruct (first_with_some _ _ Hc) as (c' & F'). congruence.
    + set (t1 := Table _ _).
      assert (ND1 : NoDup (emails t1)).
      { unfold emails, t1. simpl. rewrite map_app. simpl.
        apply NoDup_snoc; [exact ND|]. intros I.
        apply has_email_In in I. congruence. }
      destruct (IH t1 ND1) as ((added & Ha) & Hf & Hn).
      fold (save_rows t1 cs).
      split; [|split; [|exact Hn]].
      * exists (Row (largest_iid t + 1) (fst (fst c)) (snd (fst c)) (snd c)
                 :: added).
        rewrite Ha. unfold t1. simpl. rewrite <- app_assoc. reflexivity.
      * intros e. rewrite Hf. unfold stored, t1. simpl.
        rewrite map_app. fold (stored t). rewrite first_with_app.
        destruct (first_with e (stored t)); [reflexivity|].
        unfold first_with. simpl. unfold payload. simpl.
        destruct c as [[n ti] e']. simpl.
        destruct (Str.eqb e' e); reflexivity.
Qed.

Lemma save_rows_known (cs : list contact) : forall t,
  (forall c, In c cs -> has_email (snd c) t = true) -> save_rows t cs = t.
Proof.
  induction cs as [|c cs IH]; intros t H; [reflexivity|].
  cbn [save_rows fold_left]. rewrite (H c (or_introl eq_refl)).
  apply IH. intros c' I. apply H. right. exact I.
Qed.

Lemma first_with_has (e : str) (t : table) (c : contact) :
  first_with e (stored t) = Some c -> has_email e t = true.
Proof.
  intros F. destruct (has_email e t) eqn:H; [reflexivity|].
  rewrite (first_with_none _ _ H) in F. discriminate.
Qed.

Lemma first_with_In (e : str) (cs : list contact) (c : contact) :
  In c cs -> snd c = e -> exists c', first_with e cs = Some c'.
Proof.
  intros I <-. unfold first_with.
  induction cs as [|d cs IH]; [contradiction|]. simpl.
  destruct (Str.eqb (snd d) (snd c)) eqn:E; [eauto|].
  destruct I as [->|I]; [|auto]. rewrite str_eqb_refl in E. discriminate.
Qed.

(** After the loop every email of the sequence is in the table. *)
Lemma save_rows_has (cs : list contact) (t : table) (c : contact) :
  NoDup (emails t) -> In c cs -> has_email (snd c) (save_rows t cs) = true.
Proof.
  intros ND I. destruct (save_rows_spec cs t ND) as (_ & Hf & _).
  specialize (Hf (snd c)).
  destruct (first_with (snd c) (stored t)) as [c0|].
  - apply (first_with_has _ _ c0 Hf).
  - destruct (first_with_In (snd c) cs c I eq_refl) as (c' & F).
    rewrite F in Hf. apply (first_with_has _ _ c' Hf).
Qed.

Lemma save_rows_emails (cs : list contact) (t : table) (e : str) :
  NoDup (emails t) ->
  In e (emails (save_rows t cs)) <-> In e (emails t) \/ In e (map snd cs).
Proof.
  intros ND. destruct (save_rows_spec cs t ND) as (_ & Hf & _).
  rewrite <- !has_email_In. split.
  - intros H. destruct (has_email e t) eqn:Ht; [left; reflexivity|].
    right. apply first_with_some in H. destruct H as (c & F).
    rewrite Hf, (first_with_none _ _ Ht) in F.
    apply find_some in F. destruct F as [I E]. apply str_eqb_eq in E.
    apply in_map_iff. exists c. auto.
  - intros [H|H].
    + apply first_with_some in H. destruct H as (c & F).
      apply (first_with_has e _ c). rewrite Hf, F. reflexivity.
    + apply in_map_iff in H. destruct H as (c & <- & I).
      apply save_rows_has; assumption.
Qed.

(** Whether the loop finds an email in the table, after the records
    [pre]: it was in the table at the start or is the email of one of
    them. *)
Lemma has_email_saved (pre : list contact) (t : table) (e : str) :
  NoDup (emails t) ->
  has_email e (save_rows t pre)
  = existsb (fun x => Str.eqb x e) (emails t ++ map snd pre).
Proof.
  intros ND. apply eq_true_iff_eq.
  rewrite has_email_In, save_rows_emails by exact ND.
  rewrite existsb_exists. split.
  - intros H. exists e. rewrite in_app_iff, str_eqb_refl. auto.
  - intros (x & I & E). apply str_eqb_eq in E. subst x.
    apply in_app_iff, I.
Qed.

Lemma save_rows_snoc (pre : list contact) (c : contact) (t : table) :
  save_rows t (pre ++ [c])
  = let t1 := save_rows t pre in
    if has_email (snd c) t1 then t1
    else Table (rows t1 ++ [Row (largest_iid t1 + 1) (fst (fst c))
                               (snd (fst c)) (snd c)])
               (largest_iid t1 + 1).
Proof. unfold save_rows. rewrite fold_left_app. reflexivity. Qed.

Lemma filter_absent (e : str) (l : list str) :
  ~ In e l -> length (filter (fun x => Str.eqb x e) l) = 0.
Proof.
  induction l as [|y l IH]; intros H; [reflexivity|]. simpl.
  destruct (Str.eqb y e) eqn:E.
  - apply str_eqb_eq in E. subst y. exfalso. apply H. left. reflexivity.
  - apply IH. intros I. apply H. right. exact I.
Qed.

Lemma count_one (e : str) (l : list str) :
  NoDup l -> In e l -> length (filter (fun x => Str.eqb x e) l) = 1.
Proof.
  induction 1 as [|x l Hx ND IH]; [contradiction|]. simpl.
  destruct (Str.eqb x e) eqn:E.
  - apply str_eqb_eq in E. subst x. intros _. simpl. f_equal.
    apply filter_absent, Hx.
  - intros [->|I]; [rewrite str_eqb_refl in E; discriminate | auto].
Qed.

End DbFacts.

Import DbFacts.

(** ** The text widget *)

Module TkFacts.

Section Unicode.

Variable ucd_other : char -> eaw.

Lemma insert_loop (cs : list contact) : forall w,
  Tk.state w = Tk.normal ->
  fold_left
    (fun w c => Tk.insert_end (data_row ucd_other c ++ [newline]) w) cs w
  = Tk.Text Tk.normal
      (Tk.content w
       ++ flat_map (fun l => l ++ [newline]) (map (data_row ucd_other) cs)).
Proof.
  induction cs as [|c cs IH]; intros w Hw; simpl.
  - rewrite app_nil_r. destruct w as [st txt]. simpl in Hw. subst st.
    reflexivity.
  - rewrite IH.
    + unfold Tk.insert_end. rewrite Hw. simpl. rewrite <- !app_assoc.
      reflexivity.
    + unfold Tk.insert_end. rewrite Hw. reflexivity.
Qed.

Lemma display_contacts_eq (cs : list contact) (w : Tk.text_widget) :
  display_contacts ucd_other cs w
  = Tk.Text Tk.disabled
      (flat_map (fun l => l ++ [newline])
         (header_line ucd_other :: separator
            :: map (data_row ucd_other) cs)).
Proof.
  unfold display_contacts. rewrite insert_loop by reflexivity.
  cbn [Tk.configure Tk.delete_all Tk.insert_end Tk.state Tk.content flat_map].
  change ([] ++ header_line ucd_other ++ [newline])
    with (header_line ucd_other ++ [newline]).
  rewrite <- !app_assoc. reflexivity.
Qed.

Lemma lines_from_line (l rest : str) : forall cur,
  one_line l = true ->
  lines_from cur (l ++ newline :: rest) = (cur ++ l) :: lines_from [] rest.
Proof.
  induction l as [|c l IH]; intros cur H.
  - simpl. rewrite app_nil_r. reflexivity.
  - simpl in H. apply andb_true_iff in H. destruct H as [Hc H].
    apply negb_true_iff in Hc. simpl. rewrite Hc.
    rewrite IH by exact H. rewrite <- app_assoc. reflexivity.
Qed.

Lemma lines_flat (ls : list str) :
  Forall (fun l => one_line l = true) ls ->
  lines (flat_map (fun l => l ++ [newline]) ls) = ls.
Proof.
  unfold lines. induction 1 as [|l ls Hl _ IH]; [reflexivity|].
  simpl. rewrite <- app_assoc. simpl.
  rewrite lines_from_line by exact Hl. rewrite IH. reflexivity.
Qed.

Lemma one_line_app (a b : str) :
  one_line (a ++ b) = one_line a && one_line b.
Proof. apply forallb_app. Qed.

Lemma one_line_pad (s : str) (w : Z) :
  one_line (pad_string ucd_other s w) = one_line s.
Proof.
  rewrite pad_string_eq, one_line_app.
  assert (E : forall n, one_line (repeat space n) = true).
  { induction n as [|n IH]; [reflexivity | exact IH]. }
  rewrite E. apply andb_true_r.
Qed.

Lemma one_line_data_row (c : contact) :
  on_one_line c = true -> one_line (data_row ucd_other c) = true.
Proof.
  destruct c as [[n t] e]. unfold on_one_line, data_row, row_cells. simpl.
  rewrite !andb_true_iff. intros [[Hn Ht] He].
  rewrite !one_line_app, !one_line_pad, Hn, Ht, He. reflexivity.
Qed.

(** The header row, and the row of a record, character by character. *)
Lemma header_line_eq :
  header_line ucd_other
  = [22995; 21517]%N ++ repeat space 8
    ++ [32887; 31281]%N ++ repeat space 26
    ++ py "Email" ++ repeat space 25.
Proof. vm_compute. reflexivity. Qed.

Lemma data_row_eq (c : contact) :
  data_row ucd_other c
  = fst (fst c)
    ++ repeat space (Z.to_nat (12 - column_sum ucd_other (fst (fst c))))
    ++ snd (fst c)
    ++ repeat space (Z.to_nat (30 - column_sum ucd_other (snd (fst c))))
    ++ snd c
    ++ repeat space (Z.to_nat (30 - column_sum ucd_other (snd c))).
Proof.
  destruct c as [[name title] email].
  unfold data_row, row_cells. cbn [nth widths concat fst snd].
  rewrite !pad_string_eq, !width_sum, app_nil_r, <- !app_assoc.
  reflexivity.
Qed.

Lemma one_line_header : one_line (header_line ucd_other) = true.
Proof. vm_compute. reflexivity. Qed.

End Unicode.

End TkFacts.

Import TkFacts.

(** * The claims *)

Lemma Forall2_map_In {A B : Type} (R : A -> B -> Prop) (f : A -> B)
    (l : list A) :
  (forall x, In x l -> R x (f x)) -> Forall2 R l (map f l).
Proof.
  induction l as [|x l IH]; intros H; simpl; constructor.
  - apply H. left. reflexivity.
  - apply IH. intros y Hy. apply H. right. exact Hy.
Qed.

Ltac each_char :=
  repeat first [ apply Forall_nil | apply Forall_cons; [reflexivity|] ].

(** C1, as the code has it: the extractor returns one record for each
    match of the pattern, in order.  The name of the record is the
    captured name with every run of whitespace collapsed to one ASCII
    space and the whitespace at both ends removed: it is in normal form
    and keeps the words of the captured name.  The title of the record is
    the captured title with only the whitespace at both ends removed. *)
Theorem name_normalised_title_stripped : forall html : str,
  exists l,
    extract_contacts html = Done l
    /\ Forall2
         (fun m c =>
            exists rn rt re,
              m = [rn; rt; re]
              /\ fst (fst c) = strip (re_sub_ws rn)
              /\ normalised (fst (fst c)) = true
              /\ words (fst (fst c)) = words rn
              /\ snd (fst c) = strip rt
              /\ starts_ws (snd (fst c)) = false
              /\ ends_ws (snd (fst c)) = false)
         (findall pattern html) l.
Proof.
  intros html. exists (map normalise_match (findall pattern html)).
  split; [apply extract_contacts_map|].
  apply Forall2_map_In. intros m Hm.
  destruct (findall_pattern_three html m Hm) as (a & b & c & ->).
  exists a, b, c. unfold normalise_match. simpl.
  repeat split.
  - apply normalised_strip_re_sub.
  - apply words_strip_re_sub.
  - apply starts_ws_strip.
  - apply ends_ws_strip.
Qed.

(** C1 as stated fails: on [chair_markup] the extractor returns a record
    whose title still holds a run of three spaces and a newline. *)
Lemma title_runs_kept :
  extract_contacts chair_markup
  = Done [ (py "Li Wei",
            py "Professor   and" ++ [newline] ++ py "Chair",
            py "li@example.edu") ]
  /\ normalised (py "Professor   and" ++ [newline] ++ py "Chair") = false.
Proof. split; vm_compute; reflexivity. Qed.

(** C2: the display width of a string is the sum over its characters of
    2 for a character of East Asian Width F, W or A and of 1 for any
    other; it is 0 for the empty string, the number of characters for a
    string of ASCII characters, and twice the number of characters for a
    string of characters of width F, W or A. *)
Theorem get_display_width_spec : forall (ucd_other : char -> eaw) (s : str),
  get_display_width ucd_other s = column_sum ucd_other s
  /\ get_display_width ucd_other [] = 0%Z
  /\ (Forall is_ascii s ->
      get_display_width ucd_other s = Z.of_nat (length s))
  /\ (Forall (is_wide ucd_other) s ->
      get_display_width ucd_other s = (2 * Z.of_nat (length s))%Z).
Proof.
  intros ucd_other s. repeat split.
  - apply width_sum.
  - intros H. rewrite width_sum. apply csum_narrow.
    eapply Forall_impl; [|exact H]. apply ascii_narrow.
  - intros H. rewrite width_sum. apply csum_wide, H.
Qed.

Lemma get_display_width_spec_witness :
  get_display_width ucd_neutral (py "Title") = 5%Z
  /\ get_display_width ucd_neutral [21517; 23383]%N = 4%Z.
Proof.
  split.
  - apply (proj1 (proj2 (proj2
             (get_display_width_spec ucd_neutral (py "Title"))))).
    each_char.
  - apply (proj2 (proj2 (proj2
             (get_display_width_spec ucd_neutral [21517; 23383]%N)))).
    each_char.
Defined.

(** C3, as the code has it: on a table with no email twice, for records
    that can be stored (no surrogate in a text, texts within the length
    limit of the engine) and with keys left for all of them,
    [save_to_database] raises nothing; the rows there were stay as they
    were, in front of those it adds; a record whose email is in the table
    or is that of an earlier record of the sequence changes nothing, and
    any other record is added as a new row; under every email the table
    then holds the record that was there before, or else the first record
    of the sequence with that email; its emails are those it had and
    those of the sequence; every email of the sequence is in exactly one
    row; saving the same sequence again changes nothing; and the two
    records of the example, saved into the table just created, leave the
    first one only. *)
Theorem save_first_write_wins :
  forall (too_big : contact -> bool) (t : Db.table)
         (records : list contact),
  NoDup (Db.emails t) ->
  Forall (fun c => Db.storable too_big c = true) records ->
  (Db.largest_iid t + Z.of_nat (length records) < Db.max_rowid)%Z ->
  exists t',
    Db.save_to_database too_big (Some t) records = (Some t', Done tt)
    /\ (exists added, Db.rows t' = Db.rows t ++ added)
    /\ (forall pre c post,
          records = pre ++ c :: post ->
          exists t1,
            Db.save_to_database too_big (Some t) pre = (Some t1, Done tt)
            /\ Db.save_to_database too_big (Some t) (pre ++ [c])
               = (Some
                    (if existsb (fun x => Str.eqb x (snd c))
                          (Db.emails t ++ map snd pre)
                     then t1
                     else Db.Table
                            (Db.rows t1
                             ++ [Db.Row (Db.largest_iid t1 + 1)
                                   (fst (fst c)) (snd (fst c)) (snd c)])
                            (Db.largest_iid t1 + 1)),
                  Done tt))
    /\ (forall e,
          Db.first_with e (Db.stored t') =
          match Db.first_with e (Db.stored t) with
          | Some c => Some c
          | None => Db.first_with e records
          end)
    /\ (forall e, In e (Db.emails t') <->
                  In e (Db.emails t) \/ In e (map snd records))
    /\ (forall c, In c records -> count_email (snd c) t' = 1)
    /\ Db.save_to_database too_big (Some t') records = (Some t', Done tt)
    /\ (Forall (fun c => Db.storable too_big c = true) x_records ->
        Db.save_to_database too_big (Db.setup_database None) x_records
        = (Some (Db.Table
                   [Db.Row 1 (py "A") (py "B") (py "x@y.com")] 1),
           Done tt)).
Proof.
  intros too_big t records ND F L. exists (save_rows t records).
  destruct (save_rows_spec records t ND) as (Ha & Hf & Hn).
  split; [apply save_to_database_ok; [exact F | lia]|].
  split; [exact Ha|].
  assert (Hin : forall c, In c records ->
                  Db.has_email (snd c) (save_rows t records) = true).
  { intros c I. apply save_rows_has; assumption. }
  split; [|split; [exact Hf|split; [|split; [|split]]]].
  - intros pre c post E. exists (save_rows t pre).
    assert (Fp : Forall (fun c0 => Db.storable too_big c0 = true)
                   (pre ++ [c])).
    { subst records. apply Forall_app in F. destruct F as [F1 F2].
      apply Forall_app. split; [exact F1|].
      inversion F2; subst. repeat constructor. assumption. }
    assert (Lp : length (pre ++ [c]) <= length records).
    { subst records. rewrite !length_app. simpl. lia. }
    rewrite length_app in Lp. simpl in Lp.
    rewrite !save_to_database_ok;
      [| exact Fp | rewrite length_app; simpl; lia
       | apply Forall_app in Fp; tauto | lia ].
    rewrite save_rows_snoc. cbn zeta.
    rewrite <- has_email_saved by exact ND. auto.
  - intros e. apply save_rows_emails, ND.
  - intros c I. unfold count_email. apply count_one; [exact Hn|].
    apply has_email_In, Hin, I.
  - unfold Db.save_to_database.
    rewrite save_loop_known; [reflexivity | exact F | | exact Hin].
    pose proof (largest_save_rows records t). lia.
  - intros Fx. change (Db.setup_database None) with (Some (Db.Table [] 0)).
    rewrite save_to_database_ok; [reflexivity | exact Fx |].
    vm_compute. discriminate.
Qed.

Lemma save_first_write_wins_witness :
  exists t',
    Db.save_to_database row_limit (Some (Db.Table [] 0)) x_records
    = (Some t', Done tt)
    /\ count_email (py "x@y.com") t' = 1
    /\ Db.first_with (py "x@y.com") (Db.stored t')
       = Some (py "A", py "B", py "x@y.com").
Proof.
  assert (F : Forall (fun c => Db.storable row_limit c = true) x_records)
    by each_char.
  assert (L : (Db.largest_iid (Db.Table [] 0)
               + Z.of_nat (length x_records) < Db.max_rowid)%Z)
    by reflexivity.
  destruct (save_first_write_wins row_limit (Db.Table [] 0) x_records
              (NoDup_nil _) F L)
    as (t' & H1 & _ & _ & H3 & _ & H5 & _).
  exists t'. split; [exact H1|]. split.
  - apply (H5 (py "A", py "B", py "x@y.com")). left. reflexivity.
  - rewrite H3. reflexivity.
Defined.

(** C3 as stated fails: of the two records of [surrogate_records],
    neither of which has an email of the table, none is inserted: the
    second holds a surrogate, the insert raises [UnicodeEncodeError],
    which the loop does not catch, and the table just created stays
    empty. *)
Lemma save_raises_on_surrogate :
  Db.save_to_database row_limit (Db.setup_database None) surrogate_records
  = (Some (Db.Table [] 0), Raised UnicodeEncodeError).
Proof. vm_compute. reflexivity. Qed.

(** C4, as the code has it: on the page of the example the pattern
    captures the name without the whitespace around it, the title and the
    href after [mailto:]; the extractor returns the one record (Jane Doe,
    Associate  Professor, jane@example.edu), the title with its two
    spaces; and the body of the loop makes the same record of the raw
    texts of the example. *)
Theorem jane_example :
  findall pattern jane_markup
  = [ [ py "Jane   Doe"; py "Associate  Professor";
        py "//jane@example.edu" ] ]
  /\ extract_contacts jane_markup
     = Done [ (py "Jane Doe", py "Associate  Professor",
               py "jane@example.edu") ]
  /\ scrape_step []
       [ py "  Jane   Doe "; py "Associate  Professor";
         py "//jane@example.edu" ]
     = Done [ (py "Jane Doe", py "Associate  Professor",
               py "jane@example.edu") ].
Proof. repeat split; vm_compute; reflexivity. Qed.

(** C4 as stated fails: the record the extractor returns on the page of
    the example is not (Jane Doe, Associate Professor,
    jane@example.edu). *)
Lemma jane_title_keeps_two_spaces :
  exists c,
    extract_contacts jane_markup = Done [c]
    /\ contact_eqb c
         (py "Jane Doe", py "Associate Professor", py "jane@example.edu")
       = false.
Proof.
  exists (py "Jane Doe", py "Associate  Professor", py "jane@example.edu").
  split; vm_compute; reflexivity.
Qed.

(** C5, as the code has it: whatever the widget held, showing the one
    record of the example leaves in it three lines: the header row (the
    two characters of each Chinese header and [Email], padded to 12, 30
    and 30 columns), the separator row of 72 dashes, and the data row:
    the name and eight spaces (its two characters take four columns),
    [Title] and 25 spaces, [e@x.com] and 23 spaces. *)
Theorem render_one_record :
  forall (ucd_other : char -> eaw) (w : Tk.text_widget),
  display_contacts ucd_other [wide_record] w
  = Tk.Text Tk.disabled
      (([22995; 21517]%N ++ repeat space 8)
       ++ ([32887; 31281]%N ++ repeat space 26)
       ++ (py "Email" ++ repeat space 25) ++ [newline]
       ++ repeat dash 72 ++ [newline]
       ++ ([21517; 23383]%N ++ repeat space 8)
       ++ (py "Title" ++ repeat space 25)
       ++ (py "e@x.com" ++ repeat space 23) ++ [newline])
  /\ Tk.content (display_contacts ucd_other [wide_record] w)
     = header_line ucd_other ++ [newline] ++ separator ++ [newline]
       ++ data_row ucd_other wide_record ++ [newline]
  /\ separator = repeat dash 72
  /\ length separator = 72
  /\ get_display_width ucd_other [21517; 23383]%N = 4%Z
  /\ row_cells ucd_other wide_record
     = [ [21517; 23383]%N ++ repeat space 8;
         py "Title" ++ repeat space 25;
         py "e@x.com" ++ repeat space 23 ]
  /\ data_row ucd_other wide_record
     = ([21517; 23383]%N ++ repeat space 8)
       ++ (py "Title" ++ repeat space 25)
       ++ (py "e@x.com" ++ repeat space 23).
Proof.
  intros ucd_other w. split; [|split].
  - rewrite display_contacts_eq. vm_compute. reflexivity.
  - rewrite display_contacts_eq. cbn [Tk.content flat_map map].
    rewrite app_nil_r, <- !app_assoc. reflexivity.
  - repeat split; vm_compute; reflexivity.
Qed.

(** C5 as stated fails: the first cell of the data row is not the name
    and ten spaces. *)
Lemma first_cell_not_ten_spaces :
  Str.eqb (nth 0 (row_cells ucd_neutral wide_record) [])
    ([21517; 23383]%N ++ repeat space 10)
  = false.
Proof. vm_compute. reflexivity. Qed.

(** C6: [pad_string s w] is [s] and then the spaces that [w] has columns
    more than [s]; where [s] takes at most [w] columns the result takes
    [w]; where [s] takes [w] columns or more the result is [s]; in every
    case the result begins with the whole of [s]. *)
Theorem pad_string_spec :
  forall (ucd_other : char -> eaw) (s : str) (w : Z),
  pad_string ucd_other s w
  = s ++ repeat space (Z.to_nat (w - get_display_width ucd_other s))
  /\ ((get_display_width ucd_other s <= w)%Z ->
      get_display_width ucd_other (pad_string ucd_other s w) = w)
  /\ ((w <= get_display_width ucd_other s)%Z -> pad_string ucd_other s w = s)
  /\ firstn (length s) (pad_string ucd_other s w) = s.
Proof.
  intros ucd_other s w. rewrite width_pad_string, pad_string_eq.
  repeat split.
  - intros H. lia.
  - intros H.
    replace (Z.to_nat (w - get_display_width ucd_other s)) with 0 by lia.
    apply app_nil_r.
  - rewrite firstn_app, firstn_all, Nat.sub_diag. simpl. apply app_nil_r.
Qed.

Lemma pad_string_spec_witness :
  get_display_width ucd_neutral
    (pad_string ucd_neutral [21517; 23383]%N 12) = 12%Z
  /\ pad_string ucd_neutral (py "Distinguished Professor") 12
     = py "Distinguished Professor".
Proof.
  split.
  - apply (proj1 (proj2
             (pad_string_spec ucd_neutral [21517; 23383]%N 12))).
    vm_compute. discriminate.
  - apply (proj1 (proj2 (proj2
             (pad_string_spec ucd_neutral
                (py "Distinguished Professor") 12)))).
    vm_compute. discriminate.
Defined.

(** C7: on a page no part of which matches the pattern the extractor
    returns the empty list and raises nothing, and so does
    [scrape_contacts] when the network answers with such a page. *)
Theorem no_block_no_contacts : forall html : str,
  ~ contains_block html ->
  extract_contacts html = Done []
  /\ (forall (net : str -> response) (status_code : Z),
        net URL = Response status_code html ->
        is_http_error status_code = false ->
        scrape_contacts net = ([Get URL], Done [])).
Proof.
  intros html H.
  assert (E : extract_contacts html = Done []).
  { rewrite extract_contacts_map, (no_block_findall html H). reflexivity. }
  split; [exact E|].
  intros net code Hn Hc. unfold scrape_contacts.
  rewrite Hn, Hc, E. reflexivity.
Qed.

Lemma no_block_no_contacts_witness :
  extract_contacts plain_markup = Done []
  /\ extract_contacts [] = Done [].
Proof.
  split.
  - apply (no_block_no_contacts plain_markup).
    intros H. apply has_block_spec in H. vm_compute in H. discriminate.
  - apply (no_block_no_contacts []).
    intros H. apply has_block_spec in H. vm_compute in H. discriminate.
Defined.

(** C8: whatever the widget held, [display_contacts] leaves it disabled
    and holding the header row, the separator row of 72 dashes and then
    one row for each record, in the order of the records, each row
    followed by a newline; the row of a record is its name, its title and
    its email in this order, each followed by the spaces that 12, 30 and
    30 columns have more than the field. *)
Theorem display_contacts_rows :
  forall (ucd_other : char -> eaw) (contacts : list contact)
         (w : Tk.text_widget),
  display_contacts ucd_other contacts w
  = Tk.Text Tk.disabled
      (flat_map (fun l => l ++ [newline])
         (([22995; 21517]%N ++ repeat space 8
           ++ [32887; 31281]%N ++ repeat space 26
           ++ py "Email" ++ repeat space 25)
          :: repeat dash 72
          :: map
               (fun c : contact =>
                  fst (fst c)
                  ++ repeat space
                       (Z.to_nat (12 - column_sum ucd_other (fst (fst c))))
                  ++ snd (fst c)
                  ++ repeat space
                       (Z.to_nat (30 - column_sum ucd_other (snd (fst c))))
                  ++ snd c
                  ++ repeat space
                       (Z.to_nat (30 - column_sum ucd_other (snd c))))
               contacts)).
Proof.
  intros ucd_other contacts w. rewrite display_contacts_eq.
  assert (S : separator = repeat dash 72) by reflexivity.
  rewrite header_line_eq, S. do 4 f_equal. apply map_ext.
  apply data_row_eq.
Qed.

Lemma display_contacts_rows_witness :
  display_contacts ucd_neutral
    [ (py "B", py "t", py "b@x"); ([21517; 23383]%N, py "t", py "a@x") ]
    (Tk.Text Tk.normal (py "old"))
  = Tk.Text Tk.disabled
      ([22995; 21517]%N ++ repeat space 8
       ++ [32887; 31281]%N ++ repeat space 26
       ++ py "Email" ++ repeat space 25 ++ [newline]
       ++ repeat dash 72 ++ [newline]
       ++ py "B" ++ repeat space 11 ++ py "t" ++ repeat space 29
       ++ py "b@x" ++ repeat space 27 ++ [newline]
       ++ [21517; 23383]%N ++ repeat space 8 ++ py "t" ++ repeat space 29
       ++ py "a@x" ++ repeat space 27 ++ [newline]).
Proof.
  rewrite (display_contacts_rows ucd_neutral
             [ (py "B", py "t", py "b@x");
               ([21517; 23383]%N, py "t", py "a@x") ]
             (Tk.Text Tk.normal (py "old"))).
  vm_compute. reflexivity.
Defined.

(** C9, what the code does: a click on the button requests [URL], the
    constant, whatever the entry holds; the effects and the text shown
    are those of a window whose entry still holds [URL].  On the network
    of the example, with the entry edited to the address that serves the
    page, the click requests [URL], shows the window of the 404 error and
    no record. *)
Theorem fetch_ignores_url_entry :
  forall (ucd_other : char -> eaw) (net : str -> response)
         (w : Tk.text_widget) (text : str),
  (exists rest,
     fst (handle ucd_other net ClickFetch (Gui text w)) = Get URL :: rest)
  /\ fst (handle ucd_other net ClickFetch (Gui text w))
     = fst (handle ucd_other net ClickFetch (Gui URL w))
  /\ contact_text (snd (handle ucd_other net ClickFetch (Gui text w)))
     = contact_text (snd (handle ucd_other net ClickFetch (Gui URL w)))
  /\ (let g := snd (handle ucd_other example_net (EditUrl other_url)
                      initial_gui) in
      url_entry g = other_url
      /\ fst (handle ucd_other example_net ClickFetch g)
         = [Get URL; ShowError NotFoundDialog]
      /\ Tk.content
           (contact_text (snd (handle ucd_other example_net ClickFetch g)))
         = header_line ucd_other ++ [newline] ++ separator ++ [newline]).
Proof.
  intros ucd_other net w text. unfold handle, scrape_contacts.
  split; [|split; [|split]].
  - destruct (net URL) as [code body|detail].
    + destruct (is_http_error code); [simpl; eauto|].
      destruct (extract_contacts body); simpl; eauto.
    + simpl. eauto.
  - destruct (net URL) as [code body|detail].
    + destruct (is_http_error code); [reflexivity|].
      destruct (extract_contacts body); reflexivity.
    + reflexivity.
  - destruct (net URL) as [code body|detail].
    + destruct (is_http_error code); [reflexivity|].
      destruct (extract_contacts body); reflexivity.
    + reflexivity.
  - vm_compute. repeat split; reflexivity.
Qed.

(** C10: the extractor returns one record for each match of the
    pattern, and the email of the record is the text of the third group
    with its occurrences of [//] deleted wherever they stand, found from
    left to right, and then the whitespace at its two ends taken off:
    this is what [replace] and [strip] do and nothing else does; an
    occurrence of [//] after text without slashes is deleted; what
    [replace] returns holds no [//]; and an email that holds [//] does not
    come out as it was captured. *)
Theorem email_double_slash_removed : forall html : str,
  (exists l,
     extract_contacts html = Done l
     /\ Forall2
          (fun m c =>
             exists raw mid,
               nth_error m 2 = Some raw
               /\ Deletes raw mid /\ Trims mid (snd c))
          (findall pattern html) l
     /\ map snd l
        = map (fun m => strip (replace_double_slash (nth 2 m [])))
            (findall pattern html))
  /\ (forall raw out, Deletes raw out <-> out = replace_double_slash raw)
  /\ (forall s r, Trims s r <-> r = strip s)
  /\ (forall a b,
        forallb (fun c => negb (char_eqb c slash)) a = true ->
        replace_double_slash (a ++ double_slash ++ b)
        = a ++ replace_double_slash b)
  /\ (forall raw, contains double_slash (replace_double_slash raw) = false)
  /\ (forall raw,
        contains double_slash raw = true ->
        strip (replace_double_slash raw) <> raw).
Proof.
  intros html. split; [|split; [|split; [|split; [|split]]]].
  - exists (map normalise_match (findall pattern html)).
    split; [apply extract_contacts_map|]. split.
    + apply Forall2_map_In. intros m Hm.
      destruct (findall_pattern_three html m Hm) as (a & b & c & ->).
      exists c, (replace_double_slash c). split; [reflexivity|].
      split; [apply replace_Deletes|].
      apply Trims_strip. reflexivity.
    + rewrite map_map. reflexivity.
  - intros raw out. split; [apply Deletes_replace_eq|].
    intros ->. apply replace_Deletes.
  - apply Trims_strip.
  - apply replace_after_plain.
  - apply replace_no_double_slash.
  - apply replace_alters.
Qed.

Lemma email_double_slash_removed_witness :
  replace_double_slash (py "j.doe" ++ double_slash ++ py "lab@example.edu")
  = py "j.doe" ++ replace_double_slash (py "lab@example.edu")
  /\ Deletes (py "//a//b///c") (py "ab/c")
  /\ Trims ([9; 32]%N ++ py "a b" ++ [10]%N) (py "a b").
Proof.
  split; [|split].
  - apply (proj1 (proj2 (proj2 (proj2 (email_double_slash_removed []))))).
    reflexivity.
  - apply (proj2 (proj1 (proj2 (email_double_slash_removed []))
                    (py "//a//b///c") (py "ab/c"))).
    reflexivity.
  - apply (proj2 (proj1 (proj2 (proj2 (email_double_slash_removed [])))
                    ([9; 32]%N ++ py "a b" ++ [10]%N) (py "a b"))).
    reflexivity.
Defined.

(** * More properties of the code *)

(** ** The normal form of the fields *)

Lemma rstrip_fixed (s : str) : ends_ws s = false -> rstrip s = s.
Proof.
  unfold ends_ws, rstrip. intros H.
  rewrite lstrip_fixed by exact H. apply rev_involutive.
Qed.

Lemma strip_fixed (s : str) :
  starts_ws s = false -> ends_ws s = false -> strip s = s.
Proof.
  intros H1 H2. unfold strip. rewrite lstrip_fixed by exact H1.
  apply rstrip_fixed, H2.
Qed.

Lemma re_sub_ws_from_fixed (s : str) : forall in_run : bool,
  single_spaced s = true ->
  (in_run = true -> starts_ws s = false) ->
  re_sub_ws_from in_run s = s.
Proof.
  induction s as [|c s IH]; intros in_run H Hb; [reflexivity|].
  cbn [single_spaced] in H. apply andb_true_iff in H. destruct H as [H H3].
  apply andb_true_iff in H. destruct H as [H1 H2].
  cbn [re_sub_ws_from]. destruct (isspace c) eqn:E.
  - simpl in H1, H2. apply char_eqb_eq in H1. subst c.
    apply negb_true_iff in H2.
    destruct in_run.
    + specialize (Hb eq_refl). simpl in Hb. congruence.
    + f_equal. apply IH; auto.
  - f_equal. apply IH; [exact H3 | discriminate].
Qed.

Lemma normalised_fixed (s : str) :
  normalised s = true -> strip (re_sub_ws s) = s.
Proof.
  unfold normalised. rewrite !andb_true_iff, !negb_true_iff.
  intros [[H1 H2] H3]. unfold re_sub_ws.
  rewrite re_sub_ws_from_fixed by (auto; discriminate).
  apply strip_fixed; assumption.
Qed.

Lemma contains_strip (p s : str) :
  contains p s = false -> contains p (strip s) = false.
Proof.
  intros H. destruct (contains p (strip s)) eqn:C; [|reflexivity].
  destruct (lstrip_decomp s) as (ws & E1 & _).
  destruct (rstrip_decomp (lstrip s)) as (ws' & E2 & _).
  fold (strip s) in E2. rewrite E2 in E1. rewrite E1 in H.
  rewrite contains_app_l in H; [discriminate|].
  apply contains_app_r, C.
Qed.

(** X1: the email of every record the extractor returns holds no [//]
    and neither begins nor ends with whitespace; the name of every record
    is in normal form. *)
Theorem emitted_fields_clean : forall html : str,
  exists l,
    extract_contacts html = Done l
    /\ Forall
         (fun c : contact =>
            contains double_slash (snd c) = false
            /\ starts_ws (snd c) = false
            /\ ends_ws (snd c) = false
            /\ normalised (fst (fst c)) = true)
         l.
Proof.
  intros html. exists (map normalise_match (findall pattern html)).
  split; [apply extract_contacts_map|].
  apply Forall_map, Forall_forall. intros m _.
  unfold normalise_match. cbn [fst snd]. repeat split.
  - apply contains_strip, replace_no_double_slash.
  - apply starts_ws_strip.
  - apply ends_ws_strip.
  - apply normalised_strip_re_sub.
Qed.

(** X2: the body of the loop changes nothing in a record it has made:
    run on the three fields of a record that [scrape_contacts] returned,
    it returns the same record. *)
Theorem scrape_step_idempotent : forall m : list str,
  scrape_step []
    [ fst (fst (normalise_match m)); snd (fst (normalise_match m));
      snd (normalise_match m) ]
  = Done [ normalise_match m ].
Proof.
  intros m. unfold scrape_step, normalise_match. cbn [unpack3 bind fst snd].
  rewrite normalised_fixed by apply normalised_strip_re_sub.
  rewrite (strip_fixed (strip (nth 1 m [])))
    by (apply starts_ws_strip || apply ends_ws_strip).
  rewrite (replace_fixed (strip (replace_double_slash (nth 2 m []))))
    by apply contains_strip, replace_no_double_slash.
  rewrite (strip_fixed (strip (replace_double_slash (nth 2 m []))))
    by (apply starts_ws_strip || apply ends_ws_strip).
  reflexivity.
Qed.

(** ** The matches of the pattern *)

Lemma findall_fuel_In_tail p : forall n s m,
  In m (findall_fuel n p s) ->
  exists t rest, In t (tails s) /\ m_seq p t = Some (m, rest).
Proof.
  induction n as [|n IH]; intros s m; simpl; [tauto|].
  assert (Tl : forall c s' t, s = c :: s' -> In t (tails s') ->
                              In t (tails s)).
  { intros c s' t -> Ht. right. exact Ht. }
  assert (Hd : In s (tails s)) by (destruct s; left; reflexivity).
  destruct (m_seq p s) as [[caps rest]|] eqn:M.
  - intros [<-|H]; [eauto|].
    destruct (Nat.ltb (length rest) (length s)).
    + destruct (IH _ _ H) as (t & r & Ht & Hm). exists t, r.
      split; [|exact Hm]. apply m_seq_some in M.
      destruct M as (w & -> & _). apply In_tails in Ht.
      destruct Ht as (pre & ->). apply In_tails. exists (w ++ pre).
      apply app_assoc.
    + destruct s as [|c s']; [contradiction|].
      destruct (IH _ _ H) as (t & r & Ht & Hm). exists t, r.
      split; [apply (Tl c s' t eq_refl Ht) | exact Hm].
  - destruct s as [|c s']; [contradiction|]. intros H.
    destruct (IH _ _ H) as (t & r & Ht & Hm). exists t, r.
    split; [apply (Tl c s' t eq_refl Ht) | exact Hm].
Qed.

Lemma findall_fuel_hit p : forall n s t,
  length s < n -> In t (tails s) -> m_seq p t <> None ->
  findall_fuel n p s <> [].
Proof.
  induction n as [|n IH]; intros s t L Ht Hm; [lia|].
  cbn [findall_fuel].
  destruct (m_seq p s) as [[caps rest]|] eqn:M; [discriminate|].
  destruct s as [|c s].
  - destruct Ht as [<-|[]]. congruence.
  - destruct Ht as [<-|Ht]; [congruence|].
    apply (IH s t); [simpl in L; lia | exact Ht | exact Hm].
Qed.

(** X3: the extractor returns at least one record exactly when some part
    of the page matches the pattern. *)
Theorem record_iff_block : forall html : str,
  contains_block html <->
  exists c l, extract_contacts html = Done (c :: l).
Proof.
  intros html. rewrite extract_contacts_map, <- has_block_spec.
  unfold has_block. rewrite existsb_exists. split.
  - intros (t & Ht & Hm).
    assert (N : findall pattern html <> []).
    { apply (findall_fuel_hit pattern (S (length html)) html t);
        [lia | exact Ht |].
      destruct (m_seq pattern t); [discriminate | discriminate]. }
    destruct (findall pattern html) as [|m ms]; [congruence|].
    simpl. eauto.
  - intros (c & l & E). inversion E as [E'].
    destruct (findall pattern html) as [|m ms] eqn:F; [discriminate|].
    assert (I : In m (findall pattern html)) by (rewrite F; left; auto).
    apply findall_fuel_In_tail in I. destruct I as (t & rest & Ht & Hm).
    exists t. rewrite Hm. auto.
Qed.

Lemma blocks_cons (n : nat) (c : char) (s : str) :
  blocks n s -> blocks n (c :: s).
Proof.
  destruct n as [|n]; [auto|]. intros (pre & w & rest & -> & Hw & Hb).
  exists (c :: pre), w, rest. auto.
Qed.

Lemma findall_blocks : forall n s,
  length s < n -> blocks (length (findall pattern s)) s.
Proof.
  induction n as [|n IH]; intros s L; [lia|].
  rewrite findall_pattern_unfold.
  destruct (m_seq pattern s) as [[caps rest]|] eqn:M.
  - pose proof (pattern_takes_text s caps rest M) as Lr.
    apply m_seq_some in M. destruct M as (w & -> & Hw & _).
    exists [], w, rest. repeat split; auto. apply IH. lia.
  - destruct s as [|c s]; [exact I|].
    apply blocks_cons, IH. simpl in L. lia.
Qed.

(** X4: each record comes from a block of its own: the page holds as
    many parts that match the pattern, one after the other and none over
    another, as the extractor returns records. *)
Theorem records_from_disjoint_blocks : forall html : str,
  exists l, extract_contacts html = Done l /\ blocks (length l) html.
Proof.
  intros html. exists (map normalise_match (findall pattern html)).
  split; [apply extract_contacts_map|].
  rewrite length_map. apply (findall_blocks (S (length html))). lia.
Qed.

Lemma lazy_first cls k s : forall acc r,
  lazy cls k acc s = Some r ->
  exists w rest,
    s = w ++ rest /\ k (acc ++ w) rest = Some r
    /\ (forall w1 w2, w = w1 ++ w2 -> w2 <> [] ->
                      k (acc ++ w1) (w2 ++ rest) = None).
Proof.
  induction s as [|c s IH]; intros acc r; simpl.
  - destruct (k acc []) eqn:K; [|discriminate].
    intros H; inversion H; subst r0.
    exists [], []. simpl. rewrite app_nil_r. repeat split; auto.
    intros w1 w2 E Hn. symmetry in E. apply app_eq_nil in E. tauto.
  - destruct (k acc (c :: s)) eqn:K.
    + intros H; inversion H; subst r0.
      exists [], (c :: s). simpl. rewrite app_nil_r. repeat split; auto.
      intros w1 w2 E Hn. symmetry in E. apply app_eq_nil in E. tauto.
    + destruct (cls c) eqn:Ec; [|discriminate].
      intros H. destruct (IH _ _ H) as (w & rest & E & Hk & Hmin).
      exists (c :: w), rest. rewrite <- app_assoc in Hk. subst s.
      repeat split; auto.
      intros w1 w2 E Hn. destruct w1 as [|x w1]; simpl in E.
      * subst w2. rewrite app_nil_r. exact K.
      * inversion E; subst x w.
        specialize (Hmin w1 w2 eq_refl Hn).
        rewrite <- app_assoc in Hmin. exact Hmin.
Qed.

Lemma m_seq_app p q : forall s caps rest,
  m_seq (p ++ q) s = Some (caps, rest) ->
  exists s' c1 c2,
    m_seq q s' = Some (c2, rest) /\ caps = c1 ++ c2
    /\ length c1 = groups p.
Proof.
  induction p as [|n p IH]; intros s caps rest; simpl.
  - intros H. exists s, [], caps. auto.
  - destruct n as [a|a]; intros H; apply m_atom_some in H;
      destruct H as (w1 & rest1 & _ & _ & Hk).
    + apply (IH _ _ _ Hk).
    + destruct (m_seq (p ++ q) rest1) as [[caps' fin]|] eqn:M;
        [|discriminate].
      inversion Hk; subst caps fin.
      destruct (IH _ _ _ M) as (s' & c1 & c2 & Hq & -> & L).
      exists s', (w1 :: c1), c2. simpl. auto.
Qed.

Lemma first_start_contains (l w rest : str) :
  l <> [] ->
  (forall w1 w2, w = w1 ++ w2 -> w2 <> [] ->
                 starts_with l (w2 ++ rest) = false) ->
  contains l w = false.
Proof.
  intros Hl. induction w as [|c w IH]; intros H.
  - destruct l; [congruence | reflexivity].
  - cbn [contains]. apply orb_false_iff. split.
    + destruct (starts_with l (c :: w)) eqn:S; [|reflexivity].
      apply (starts_with_app_r _ _ rest) in S.
      rewrite (H [] (c :: w) eq_refl) in S; [discriminate | discriminate].
    + apply IH. intros w1 w2 -> Hn. apply (H (c :: w1) w2 eq_refl Hn).
Qed.

(** The last group of a pattern that ends with a lazy group and a
    literal stops before the first place where the literal stands. *)
Lemma last_group_stops p l : forall s caps rest,
  l <> [] ->
  m_seq (p ++ [Group (LazyStar any); Bare (Lit l)]) s = Some (caps, rest) ->
  exists c1 w, caps = c1 ++ [w] /\ contains l w = false.
Proof.
  intros s caps rest Hl H. apply m_seq_app in H.
  destruct H as (s' & c1 & c2 & Hq & -> & _). cbn [m_seq m_atom] in Hq.
  apply lazy_first in Hq. destruct Hq as (w & r & _ & Hk & Hmin).
  simpl in Hk. destruct (starts_with l r); [|discriminate].
  inversion Hk; subst c2 rest. exists c1, w. split; [reflexivity|].
  apply (first_start_contains l w r Hl). intros w1 w2 E Hn.
  specialize (Hmin w1 w2 E Hn). simpl in Hmin.
  destruct (starts_with l (w2 ++ r)); [discriminate | reflexivity].
Qed.

(** X5: the text the pattern captures for the email never holds the two
    characters that close the [href]: the group stops at the first
    double quote followed by [>]. *)
Theorem captured_email_stops_at_quote : forall html : str,
  Forall (fun m => contains close_href (nth 2 m []) = false)
    (findall pattern html).
Proof.
  intros html. apply Forall_forall. intros m Hm.
  destruct (findall_pattern_three html m Hm) as (a & b & c & ->).
  apply findall_fuel_In in Hm. destruct Hm as (t & rest & M).
  change pattern
    with (firstn 25 pattern
          ++ [Group (LazyStar any); Bare (Lit close_href)]) in M.
  apply last_group_stops in M; [|discriminate].
  destruct M as (c1 & w & E & Hw).
  change [a; b; c] with ([a; b] ++ [c]) in E.
  apply app_inj_tail in E. destruct E as [_ ->]. exact Hw.
Qed.

Lemma greedy_last cls k s : forall acc r,
  greedy cls k acc s = Some r ->
  exists w rest,
    s = w ++ rest /\ k (acc ++ w) rest = Some r
    /\ (forall x rest', rest = x ++ rest' -> x <> [] ->
                        forallb cls x = true ->
                        k (acc ++ w ++ x) rest' = None).
Proof.
  induction s as [|c s IH]; intros acc r; simpl.
  - intros H. exists [], []. simpl. rewrite app_nil_r.
    repeat split; auto.
    intros x rest' E Hn. symmetry in E. apply app_eq_nil in E. tauto.
  - assert (Here : cls c = false \/ greedy cls k (acc ++ [c]) s = None ->
             k acc (c :: s) = Some r ->
             exists w rest,
               c :: s = w ++ rest /\ k (acc ++ w) rest = Some r
               /\ (forall x rest', rest = x ++ rest' -> x <> [] ->
                                   forallb cls x = true ->
                                   k (acc ++ w ++ x) rest' = None)).
    { intros Hc H. exists [], (c :: s). simpl. rewrite app_nil_r.
      repeat split; auto. intros x rest' E Hn Hx.
      destruct x as [|y x]; [congruence|]. simpl in E.
      inversion E; subst y s. simpl in Hx.
      apply andb_true_iff in Hx. destruct Hx as [Hy Hx].
      destruct Hc as [Hc|Hc]; [congruence|].
      pose proof (proj1 (greedy_none cls k _ _) Hc x rest' eq_refl Hx)
        as R.
      rewrite <- app_assoc in R. exact R. }
    destruct (cls c) eqn:Ec; [|apply Here; auto].
    destruct (greedy cls k (acc ++ [c]) s) eqn:G; [|apply Here; auto].
    intros H; inversion H; subst r0.
    destruct (IH _ _ G) as (w & rest & E & Hk & Hmax).
    exists (c :: w), rest. rewrite <- app_assoc in Hk. subst s.
    repeat split; auto. intros x rest' E Hn Hx.
    specialize (Hmax x rest' E Hn Hx).
    rewrite <- app_assoc in Hmax. exact Hmax.
Qed.

(** After [\s*] a lazy group of any characters does not begin with
    whitespace: the greedy loop has taken it. *)
Lemma star_group_trims_left q : forall s caps rest,
  m_seq (Bare (Star isspace) :: Group (LazyStar any) :: q) s
  = Some (caps, rest) ->
  exists g caps', caps = g :: caps' /\ starts_ws g = false.
Proof.
  intros s caps rest H. cbn [m_seq m_atom] in H.
  apply greedy_last in H. destruct H as (w & r & _ & Hk & Hmax).
  apply lazy_some in Hk. destruct Hk as (g & r2 & -> & _ & Hk).
  destruct (m_seq q r2) as [[caps' fin]|] eqn:M; [|discriminate].
  inversion Hk; subst caps fin. exists g, caps'. split; [reflexivity|].
  destruct g as [|c g]; [reflexivity|]. simpl.
  destruct (isspace c) eqn:Ec; [|reflexivity]. exfalso.
  assert (N : lazy any
                (fun w0 rest0 =>
                   match m_seq q rest0 with
                   | Some (caps0, fin0) => Some (w0 :: caps0, fin0)
                   | None => None
                   end) [] (g ++ r2) = None).
  { apply (Hmax [c] (g ++ r2)); [reflexivity | discriminate |].
    simpl. rewrite Ec. reflexivity. }
  pose proof (proj1 (lazy_none _ _ _ _) N g r2 eq_refl) as R.
  simpl in R. rewrite M in R.
  assert (A : forallb any g = true) by (apply forallb_forall; reflexivity).
  specialize (R A). discriminate.
Qed.

(** Before [\s*] a lazy group of any characters does not end with
    whitespace: the lazy loop stops before it. *)
Lemma group_star_trims_right q : forall s caps rest,
  m_seq (Group (LazyStar any) :: Bare (Star isspace) :: q) s
  = Some (caps, rest) ->
  exists g caps', caps = g :: caps' /\ ends_ws g = false.
Proof.
  intros s caps rest H. cbn [m_seq m_atom] in H.
  apply lazy_first in H. destruct H as (g & r & _ & Hk & Hmin).
  simpl in Hk.
  destruct (greedy isspace (fun _ rest0 => m_seq q rest0) [] r)
    as [[caps' fin]|] eqn:G; [|discriminate].
  inversion Hk; subst caps fin. exists g, caps'. split; [reflexivity|].
  unfold ends_ws. destruct (rev g) as [|c g'] eqn:Eg; [reflexivity|].
  simpl. destruct (isspace c) eqn:Ec; [|reflexivity]. exfalso.
  assert (E : g = rev g' ++ [c]).
  { rewrite <- (rev_involutive g), Eg. reflexivity. }
  specialize (Hmin (rev g') [c] E). simpl in Hmin.
  rewrite Ec in Hmin.
  destruct (greedy isspace (fun _ rest0 => m_seq q rest0) [c] r)
    as [[caps2 fin2]|] eqn:G2.
  - specialize (Hmin ltac:(discriminate)). discriminate.
  - apply greedy_some in G. destruct G as (w & r2 & -> & Hw & Hq).
    pose proof (proj1 (greedy_none _ _ _ _) G2 w r2 eq_refl Hw) as R.
    simpl in R. congruence.
Qed.

(** X17: the pattern itself trims the name and the title: for every
    match, the texts captured for the name and for the title neither begin
    nor end with whitespace, so the title of the record is the captured
    title as it is. *)
Theorem captured_name_title_trimmed : forall html : str,
  Forall
    (fun m =>
       starts_ws (nth 0 m []) = false /\ ends_ws (nth 0 m []) = false
       /\ starts_ws (nth 1 m []) = false /\ ends_ws (nth 1 m []) = false
       /\ snd (fst (normalise_match m)) = nth 1 m [])
    (findall pattern html).
Proof.
  intros html. apply Forall_forall. intros m Hm.
  destruct (findall_pattern_three html m Hm) as (a & b & c & ->).
  apply findall_fuel_In in Hm. destruct Hm as (t & rest & M).
  assert (part : forall n,
            exists s' c1 c2,
              m_seq (skipn n pattern) s' = Some (c2, rest)
              /\ [a; b; c] = c1 ++ c2
              /\ length c1 = groups (firstn n pattern)).
  { intros n. apply (m_seq_app (firstn n pattern) (skipn n pattern) t).
    rewrite firstn_skipn. exact M. }
  assert (A1 : starts_ws a = false).
  { destruct (part 9) as (s' & c1 & c2 & Hq & E & L).
    destruct c1; [|discriminate]. simpl in E. subst c2.
    apply star_group_trims_left in Hq.
    destruct Hq as (g & caps' & E & Hg). inversion E; subst. exact Hg. }
  assert (A2 : ends_ws a = false).
  { destruct (part 10) as (s' & c1 & c2 & Hq & E & L).
    destruct c1; [|discriminate]. simpl in E. subst c2.
    apply group_star_trims_right in Hq.
    destruct Hq as (g & caps' & E & Hg). inversion E; subst. exact Hg. }
  assert (B1 : starts_ws b = false).
  { destruct (part 17) as (s' & c1 & c2 & Hq & E & L).
    destruct c1 as [|x [|y c1]]; try discriminate. simpl in E.
    inversion E; subst.
    apply star_group_trims_left in Hq.
    destruct Hq as (g & caps' & E' & Hg). inversion E'; subst. exact Hg. }
  assert (B2 : ends_ws b = false).
  { destruct (part 18) as (s' & c1 & c2 & Hq & E & L).
    destruct c1 as [|x [|y c1]]; try discriminate. simpl in E.
    inversion E; subst.
    apply group_star_trims_right in Hq.
    destruct Hq as (g & caps' & E' & Hg). inversion E'; subst. exact Hg. }
  repeat split; auto.
  unfold normalise_match. cbn [fst snd nth]. apply strip_fixed; assumption.
Qed.

(** ** Widths, padding and the rows of the table *)

Section MoreWidth.

Variable ucd_other : char -> eaw.

Lemma csum_bounds (s : str) :
  (Z.of_nat (length s) <= column_sum ucd_other s
   <= 2 * Z.of_nat (length s))%Z.
Proof.
  unfold column_sum. induction s as [|c s IH]; [simpl; lia|].
  cbn [map fold_right length]. unfold columns at 1 3.
  destruct (in_FWA (east_asian_width ucd_other c)); lia.
Qed.

Lemma width_app (a b : str) :
  get_display_width ucd_other (a ++ b)
  = (get_display_width ucd_other a + get_display_width ucd_other b)%Z.
Proof. rewrite !width_sum. apply csum_app. Qed.

Lemma width_concat3 (a b c : str) :
  get_display_width ucd_other (concat [a; b; c])
  = (get_display_width ucd_other a + get_display_width ucd_other b
     + get_display_width ucd_other c)%Z.
Proof.
  cbn [concat]. rewrite app_nil_r, !width_app. lia.
Qed.

End MoreWidth.

(** X6: the display width of two strings one after the other is the sum
    of their widths, and the width of a string lies between its number
    of characters and twice that number. *)
Theorem width_additive_bounded :
  forall (ucd_other : char -> eaw) (a b : str),
  get_display_width ucd_other (a ++ b)
  = (get_display_width ucd_other a + get_display_width ucd_other b)%Z
  /\ (Z.of_nat (length a) <= get_display_width ucd_other a
      <= 2 * Z.of_nat (length a))%Z.
Proof.
  intros ucd_other a b. split; [apply width_app|].
  rewrite width_sum. apply csum_bounds.
Qed.

(** X7: padding a padded string again is padding once to the larger of
    the two widths; in particular padding twice to the same width is
    padding once. *)
Theorem pad_string_twice :
  forall (ucd_other : char -> eaw) (s : str) (w1 w2 : Z),
  pad_string ucd_other (pad_string ucd_other s w1) w2
  = pad_string ucd_other s (Z.max w1 w2)
  /\ pad_string ucd_other (pad_string ucd_other s w1) w1
     = pad_string ucd_other s w1.
Proof.
  intros ucd_other s w1 w2.
  assert (G : forall v,
            pad_string ucd_other (pad_string ucd_other s w1) v
            = pad_string ucd_other s (Z.max w1 v)).
  { intros v. rewrite (pad_string_eq ucd_other (pad_string ucd_other s w1)).
    rewrite width_pad_string, !pad_string_eq, <- app_assoc, <- repeat_app.
    do 2 f_equal. lia. }
  split; [apply G|]. rewrite G, Z.max_id. reflexivity.
Qed.

(** X8: a data row takes, for each of its three cells, the width of the
    column or that of the field if the field is wider; so a row whose
    fields fit their columns takes 72 columns, as the header row and the
    separator row always do. *)
Theorem rows_aligned :
  forall (ucd_other : char -> eaw) (name title email : str),
  get_display_width ucd_other (data_row ucd_other (name, title, email))
  = (Z.max 12 (get_display_width ucd_other name)
     + Z.max 30 (get_display_width ucd_other title)
     + Z.max 30 (get_display_width ucd_other email))%Z
  /\ ((get_display_width ucd_other name <= 12)%Z ->
      (get_display_width ucd_other title <= 30)%Z ->
      (get_display_width ucd_other email <= 30)%Z ->
      get_display_width ucd_other (data_row ucd_other (name, title, email))
      = 72%Z)
  /\ get_display_width ucd_other (header_line ucd_other) = 72%Z
  /\ get_display_width ucd_other separator = 72%Z.
Proof.
  intros ucd_other name title email.
  assert (E : get_display_width ucd_other
                (data_row ucd_other (name, title, email))
              = (Z.max 12 (get_display_width ucd_other name)
                 + Z.max 30 (get_display_width ucd_other title)
                 + Z.max 30 (get_display_width ucd_other email))%Z).
  { unfold data_row, row_cells. cbn [nth widths].
    rewrite width_concat3, !width_pad_string. reflexivity. }
  split; [exact E|]. split; [intros; rewrite E; lia|].
  split; vm_compute; reflexivity.
Qed.

Lemma rows_aligned_witness :
  get_display_width ucd_neutral (data_row ucd_neutral wide_record) = 72%Z.
Proof.
  apply (proj1 (proj2
           (rows_aligned ucd_neutral [21517; 23383]%N (py "Title")
              (py "e@x.com"))));
    vm_compute; discriminate.
Defined.

(** X9: what [display_contacts] shows does not depend on what the widget
    showed: showing a second list after a first one is showing the second
    one, and showing the empty list leaves the header row and the
    separator row only. *)
Theorem display_contacts_replaces :
  forall (ucd_other : char -> eaw) (first second : list contact)
         (w : Tk.text_widget),
  display_contacts ucd_other second (display_contacts ucd_other first w)
  = display_contacts ucd_other second w
  /\ display_contacts ucd_other [] w
     = Tk.Text Tk.disabled (empty_table_text ucd_other).
Proof.
  intros ucd_other first second w. rewrite !display_contacts_eq.
  split; reflexivity.
Qed.

(** ** The store: the table, the sequence saved in parts, the keys *)

Lemma save_loop_keys (too_big : contact -> bool) (cs : list contact) :
  forall t t' : Db.table,
  Db.save_loop too_big t cs = Done t' ->
  exists added,
    Db.rows t' = Db.rows t ++ added
    /\ Forall
         (fun r => (Db.largest_iid t < Db.iid r <= Db.max_rowid)%Z) added
    /\ (NoDup (iids t) -> NoDup (iids t')).
Proof.
  induction cs as [|c cs IH]; intros t t' H.
  - inversion H; subst. exists []. rewrite app_nil_r. auto.
  - rewrite save_loop_cons in H.
    destruct (Db.save_step too_big t c) as [t1|] eqn:S; [|discriminate].
    cbn [bind] in H. destruct (IH _ _ H) as (added & Ha & Hf & Hn).
    apply save_step_done in S. destruct S as [->|[L ->]].
    + exists added. auto.
    + rewrite largest_iid_insert in Hf. cbn [Db.rows] in Ha.
      exists (Db.Row (Db.largest_iid t + 1) (fst (fst c)) (snd (fst c))
                (snd c) :: added).
      split; [|split].
      * rewrite Ha, <- app_assoc. reflexivity.
      * constructor; [simpl; lia|].
        eapply Forall_impl; [|exact Hf]. simpl. intros; lia.
      * intros ND. apply Hn. unfold iids. cbn [Db.rows].
        rewrite map_app. apply NoDup_app; [exact ND | |].
        -- constructor; [simpl; tauto | constructor].
        -- intros k Hk [<-|[]]. apply in_map_iff in Hk.
           destruct Hk as (r0 & E & Hr0).
           pose proof (fold_max_In (Db.rows t) (Db.seq t) r0 Hr0) as M.
           fold (Db.largest_iid t) in M. simpl in E. lia.
Qed.





(** X12: the keys [save_to_database] gives are new and in range: when
    the call raises nothing, every row it has added has a key above every
    key of the table and above the largest key ever given, and at most
    [max_rowid]; keys that were distinct stay distinct. *)
Theorem saved_keys_fresh :
  forall (too_big : contact -> bool) (t t' : Db.table)
         (records : list contact),
  Db.save_to_database too_big (Some t) records = (Some t', Done tt) ->
  exists added,
    Db.rows t' = Db.rows t ++ added
    /\ Forall
         (fun r =>
            (Db.seq t < Db.iid r <= Db.max_rowid)%Z
            /\ Forall (fun r0 => (Db.iid r0 < Db.iid r)%Z) (Db.rows t))
         added
    /\ (NoDup (iids t) -> NoDup (iids t')).
Proof.
  intros too_big t t' records H. unfold Db.save_to_database in H.
  destruct (Db.save_loop too_big t records) as [t1|] eqn:L;
    [|discriminate].
  inversion H; subst t1.
  destruct (save_loop_keys too_big records t t' L) as (added & Ha & Hf & Hn).
  exists added. split; [exact Ha|]. split; [|exact Hn].
  eapply Forall_impl; [|exact Hf]. cbn beta. intros r Hr. split.
  - pose proof (fold_max_base (Db.rows t) (Db.seq t)) as M.
    fold (Db.largest_iid t) in M. lia.
  - apply Forall_forall. intros r0 Hr0.
    pose proof (fold_max_In (Db.rows t) (Db.seq t) r0 Hr0) as M.
    fold (Db.largest_iid t) in M. lia.
Qed.

Lemma saved_keys_fresh_witness :
  exists added,
    [ Db.Row 7 (py "Z") (py "t") (py "z@y.com");
      Db.Row 10 (py "A") (py "B") (py "x@y.com") ]
    = [ Db.Row 7 (py "Z") (py "t") (py "z@y.com") ] ++ added
    /\ Forall
         (fun r =>
            (9 < Db.iid r <= Db.max_rowid)%Z
            /\ Forall (fun r0 => (Db.iid r0 < Db.iid r)%Z)
                 [ Db.Row 7 (py "Z") (py "t") (py "z@y.com") ])
         added
    /\ (NoDup (iids (Db.Table
                       [ Db.Row 7 (py "Z") (py "t") (py "z@y.com") ] 9)) ->
        NoDup (iids (Db.Table
                       [ Db.Row 7 (py "Z") (py "t") (py "z@y.com");
                         Db.Row 10 (py "A") (py "B") (py "x@y.com") ]
                       10))).
Proof.
  apply (saved_keys_fresh row_limit
           (Db.Table [ Db.Row 7 (py "Z") (py "t") (py "z@y.com") ] 9)
           (Db.Table
              [ Db.Row 7 (py "Z") (py "t") (py "z@y.com");
                Db.Row 10 (py "A") (py "B") (py "x@y.com") ] 10)
           x_records).
  vm_compute. reflexivity.
Defined.

(** ** The fetch and the main loop *)

Lemma requests_app (a b : list effect) :
  requests (a ++ b) = requests a ++ requests b.
Proof.
  induction a as [|[u|d] a IH]; simpl; [reflexivity | f_equal; exact IH
                                        | exact IH].
Qed.

(** [scrape_contacts] by the answer of the network. *)
Lemma scrape_contacts_cases (net : str -> response) :
  (exists code text,
     net URL = Response code text /\ is_http_error code = false
     /\ scrape_contacts net
        = ([Get URL], Done (map normalise_match (findall pattern text))))
  \/ (exists d,
        (forall code text,
           net URL = Response code text -> is_http_error code = true)
        /\ scrape_contacts net = ([Get URL; ShowError d], Done [])
        /\ (d = NotFoundDialog <->
            exists text, net URL = Response 404 text)).
Proof.
  unfold scrape_contacts. destruct (net URL) as [code text|detail] eqn:N.
  - destruct (is_http_error code) eqn:E.
    + right. destruct (code =? 404)%Z eqn:C.
      * apply Z.eqb_eq in C. subst code. exists NotFoundDialog.
        split; [intros c t H; inversion H; subst; exact E|].
        split; [reflexivity|]. split; eauto.
      * exists (HttpErrorDialog code).
        split; [intros c t H; inversion H; subst; exact E|].
        split; [reflexivity|]. split; [discriminate|].
        intros (t & H). inversion H; subst.
        rewrite Z.eqb_refl in C. discriminate.
    + left. exists code, text. rewrite extract_contacts_map. auto.
  - right. exists (ConnectionDialog detail).
    split; [intros c t H; discriminate|].
    split; [reflexivity|]. split; [discriminate|].
    intros (t & H). discriminate.
Qed.

(** X13: [scrape_contacts] never raises and makes one request, for
    [URL]; it shows an error window exactly when the network did not
    answer with a page, then one window only and the empty list as its
    result; the window is that of the 404 error exactly when the answer
    has the status 404. *)
Theorem scrape_contacts_outcomes : forall net : str -> response,
  requests (fst (scrape_contacts net)) = [URL]
  /\ (exists contacts,
        snd (scrape_contacts net) = Done contacts
        /\ (dialogs (fst (scrape_contacts net)) <> [] -> contacts = []))
  /\ length (dialogs (fst (scrape_contacts net))) <= 1
  /\ (dialogs (fst (scrape_contacts net)) = [] <->
      exists code text,
        net URL = Response code text /\ is_http_error code = false)
  /\ (dialogs (fst (scrape_contacts net)) = [NotFoundDialog] <->
      exists text, net URL = Response 404 text).
Proof.
  intros net.
  destruct (scrape_contacts_cases net)
    as [(code & text & N & E & ->)|(d & N & -> & Hd)]; cbn [fst snd].
  - split; [reflexivity|]. split; [eexists; split; [reflexivity|]|].
    + simpl. congruence.
    + split; [simpl; lia|]. split.
      * split; eauto.
      * split; [discriminate|]. intros (t & H). rewrite N in H.
        inversion H; subst. discriminate.
  - split; [reflexivity|]. split; [eauto|].
    split; [simpl; lia|]. split.
    + split; [discriminate|]. intros (code & text & H & E).
      rewrite (N code text H) in E. discriminate.
    + simpl. rewrite <- Hd. split; [intros H; inversion H | intros ->];
        reflexivity.
Qed.

Lemma handle_step (ucd_other : char -> eaw) (net : str -> response)
    (ev : event) (g : gui) :
  Tk.state (contact_text g) = Tk.disabled ->
  Tk.state (contact_text (snd (handle ucd_other net ev g))) = Tk.disabled
  /\ requests (fst (handle ucd_other net ev g))
     = (if is_click ev then [URL] else [])
  /\ url_entry (snd (handle ucd_other net ev g))
     = match ev with
       | EditUrl new_text => new_text
       | ClickFetch => url_entry g
       end.
Proof.
  intros Hg. destruct ev as [new_text|]; [simpl; auto|].
  unfold handle.
  destruct (scrape_contacts_cases net)
    as [(code & text & _ & _ & ->)|(d & _ & -> & _)];
    cbn [fst snd contact_text url_entry];
    rewrite display_contacts_eq; auto.
Qed.

Lemma run_invariants (ucd_other : char -> eaw)
    (steps : list ((str -> response) * event)) : forall g : gui,
  Tk.state (contact_text g) = Tk.disabled ->
  Tk.state (contact_text (snd (run ucd_other steps g))) = Tk.disabled
  /\ Forall (fun u => u = URL) (requests (fst (run ucd_other steps g)))
  /\ length (requests (fst (run ucd_other steps g)))
     = length (filter (fun s => is_click (snd s)) steps)
  /\ url_entry (snd (run ucd_other steps g))
     = last_edit steps (url_entry g).
Proof.
  induction steps as [|[net ev] steps IH]; intros g Hg.
  - simpl. auto.
  - cbn [run].
    destruct (handle_step ucd_other net ev g Hg) as (H1 & H2 & H3).
    destruct (handle ucd_other net ev g) as [es g1]. cbn [fst snd] in *.
    destruct (IH g1 H1) as (I1 & I2 & I3 & I4).
    destruct (run ucd_other steps g1) as [es' g2]. cbn [fst snd] in *.
    rewrite requests_app, H2, length_app, I3.
    split; [exact I1|]. split; [|split].
    + apply Forall_app. split; [|exact I2].
      destruct (is_click ev); repeat constructor.
    + cbn [filter snd]. destruct (is_click ev); reflexivity.
    + rewrite I4, H3. destruct ev; reflexivity.
Qed.

(** X14: whatever the events of the main loop and the answers of the
    network, the text widget is disabled after them, every request was
    for [URL], there was one request for each click on the button, and
    the entry holds the text of the last edit. *)
Theorem main_loop_invariants :
  forall (ucd_other : char -> eaw)
         (steps : list ((str -> response) * event)),
  Tk.state (contact_text (snd (run ucd_other steps initial_gui)))
  = Tk.disabled
  /\ Forall (fun u => u = URL)
       (requests (fst (run ucd_other steps initial_gui)))
  /\ length (requests (fst (run ucd_other steps initial_gui)))
     = length (filter (fun s => is_click (snd s)) steps)
  /\ url_entry (snd (run ucd_other steps initial_gui))
     = last_edit steps URL.
Proof.
  intros ucd_other steps.
  apply (run_invariants ucd_other steps initial_gui). reflexivity.
Qed.

(** X15: a click when the network does not answer with a page empties
    the table: whatever the widget showed, it then shows the header row
    and the separator row only, after one error window; the entry keeps
    its text. *)
Theorem failed_fetch_clears_table :
  forall (ucd_other : char -> eaw) (net : str -> response) (g : gui),
  (forall code text,
     net URL = Response code text -> is_http_error code = true) ->
  contact_text (snd (handle ucd_other net ClickFetch g))
  = Tk.Text Tk.disabled (empty_table_text ucd_other)
  /\ length (dialogs (fst (handle ucd_other net ClickFetch g))) = 1
  /\ url_entry (snd (handle ucd_other net ClickFetch g)) = url_entry g.
Proof.
  intros ucd_other net g H. unfold handle.
  destruct (scrape_contacts_cases net)
    as [(code & text & N & E & _)|(d & _ & -> & _)].
  - rewrite (H code text N) in E. discriminate.
  - cbn [fst snd contact_text url_entry]. rewrite display_contacts_eq.
    repeat split.
Qed.

Lemma failed_fetch_clears_table_witness :
  contact_text
    (snd (handle ucd_neutral example_net ClickFetch
            (Gui other_url
               (display_contacts ucd_neutral [wide_record]
                  (Tk.Text Tk.disabled [])))))
  = Tk.Text Tk.disabled (empty_table_text ucd_neutral)
  /\ length
       (dialogs
          (fst (handle ucd_neutral example_net ClickFetch
                  (Gui other_url
                     (display_contacts ucd_neutral [wide_record]
                        (Tk.Text Tk.disabled []))))))
     = 1
  /\ url_entry
       (snd (handle ucd_neutral example_net ClickFetch
               (Gui other_url
                  (display_contacts ucd_neutral [wide_record]
                     (Tk.Text Tk.disabled [])))))
     = other_url.
Proof.
  apply (failed_fetch_clears_table ucd_neutral example_net).
  intros code text H. vm_compute in H. inversion H. reflexivity.
Defined.

(** X18: where no field of the records holds a newline, the lines of the
    text that [display_contacts] leaves are the header row, the
    separator row and then the row of each record, one line for a record
    and in the order of the records. *)
Theorem display_contacts_lines :
  forall (ucd_other : char -> eaw) (contacts : list contact)
         (w : Tk.text_widget),
  Forall (fun c => on_one_line c = true) contacts ->
  lines (Tk.content (display_contacts ucd_other contacts w))
  = ([22995; 21517]%N ++ repeat space 8
     ++ [32887; 31281]%N ++ repeat space 26
     ++ py "Email" ++ repeat space 25)
    :: repeat dash 72
    :: map
         (fun c : contact =>
            fst (fst c)
            ++ repeat space
                 (Z.to_nat (12 - column_sum ucd_other (fst (fst c))))
            ++ snd (fst c)
            ++ repeat space
                 (Z.to_nat (30 - column_sum ucd_other (snd (fst c))))
            ++ snd c
            ++ repeat space (Z.to_nat (30 - column_sum ucd_other (snd c))))
         contacts.
Proof.
  intros ucd_other contacts w H. rewrite display_contacts_eq.
  cbn [Tk.content]. rewrite lines_flat.
  - assert (S : separator = repeat dash 72) by reflexivity.
    rewrite header_line_eq, S. do 2 f_equal. apply map_ext.
    apply data_row_eq.
  - constructor; [apply one_line_header|].
    constructor; [vm_compute; reflexivity|].
    apply Forall_map. eapply Forall_impl; [|exact H].
    intros c Hc. apply one_line_data_row, Hc.
Qed.

Lemma display_contacts_lines_witness :
  lines
    (Tk.content
       (display_contacts ucd_neutral
          [ (py "B", py "t", py "b@x"); (py "A", py "t", py "a@x") ]
          (Tk.Text Tk.disabled (py "old"))))
  = [ [22995; 21517]%N ++ repeat space 8
      ++ [32887; 31281]%N ++ repeat space 26
      ++ py "Email" ++ repeat space 25;
      repeat dash 72;
      py "B" ++ repeat space 11 ++ py "t" ++ repeat space 29
      ++ py "b@x" ++ repeat space 27;
      py "A" ++ repeat space 11 ++ py "t" ++ repeat space 29
      ++ py "a@x" ++ repeat space 27 ].
Proof.
  rewrite (display_contacts_lines ucd_neutral
             [ (py "B", py "t", py "b@x"); (py "A", py "t", py "a@x") ]
             (Tk.Text Tk.disabled (py "old")));
    [vm_compute; reflexivity | repeat constructor].
Defined.
